(** * HtmlCheerioV1: the declarative extraction engine

    A shallow embedding of
    [packages/nodes-base/nodes/HtmlCheerio/V1/HtmlCheerioV1.node.ts]:
    the text normaliser [formatText], the recursive rule evaluator
    [resolveSelectFields] and the batch driver [execute], followed by the
    properties the specification states about them. *)

From Stdlib Require Import String Ascii.
From stdpp Require Import gmap list option sorting.

Set Default Proof Using "Type".
Set Warnings "-register-all".

(** ** JavaScript strings

    A JavaScript string is a sequence of UTF-16 code units.  Keeping the
    code units (rather than bytes) lets the whitespace class [\s] be the
    one of the language. *)

Abbreviation jsstring := (list N).

(** An ASCII literal as a JavaScript string. *)
Definition js (s : string) : jsstring :=
  (λ a, N_of_ascii a) <$> list_ascii_of_string s.

Definition LF : N := 10%N.
Definition SPACE : N := 32%N.

(** [\n] in a regular expression: the line feed only. *)
Definition is_lf (c : N) : bool := bool_decide (c = LF).

(** [\s], which is also what [String.prototype.trim] strips: WhiteSpace
    (TAB, VT, FF, SP, NBSP, ZWNBSP and the space separators) together with
    LineTerminator (LF, CR, LS, PS). *)
Definition is_ws (c : N) : bool :=
  bool_decide (c ∈ [9; 10; 11; 12; 13; 32; 160; 5760; 8232; 8233; 8239;
                    8287; 12288; 65279]%N)
  || ((8192 <=? c) && (c <=? 8202))%N.

(** ** [formatText] *)

Fixpoint drop_ws (s : jsstring) : jsstring :=
  match s with
  | c :: s' => if is_ws c then drop_ws s' else s
  | [] => []
  end.

(** [text.trim()] *)
Definition trim (s : jsstring) : jsstring :=
  reverse (drop_ws (reverse (drop_ws s))).

Fixpoint drop_lf (s : jsstring) : jsstring :=
  match s with
  | c :: s' => if is_lf c then drop_lf s' else s
  | [] => []
  end.

(** The tail of the pattern, [\n+] then [\s*], both greedy; nothing
    follows them, so the longest choice is the one taken.  The result is
    what is left of the input after the match. *)
Definition match_nl_tail (s : jsstring) : option jsstring :=
  match s with
  | c :: s' => if is_lf c then Some (drop_ws (drop_lf s')) else None
  | [] => None
  end.

(** The whole pattern, [\s*] then [\n+] then [\s*], anchored at the head
    of [s].  The leading [\s*] is greedy: it first tries to take one more
    whitespace character and gives it back only when the rest then fails. *)
Fixpoint match_pattern (s : jsstring) : option jsstring :=
  match s with
  | c :: s' =>
      if is_ws c then
        match match_pattern s' with
        | Some r => Some r
        | None => match_nl_tail s
        end
      else match_nl_tail s
  | [] => match_nl_tail []
  end.

(** The global [replace] of that pattern by [' ']: scan from the left; at
    a position where the pattern matches emit one space and resume after
    the match, elsewhere copy the character.  [skip] counts the characters
    of the current match still to be passed over. *)
Fixpoint replace_from (skip : nat) (s : jsstring) : jsstring :=
  match s with
  | [] => []
  | c :: s' =>
      match skip with
      | S k => replace_from k s'
      | O =>
          match match_pattern s with
          | Some r => SPACE :: replace_from (length s' - length r) s'
          | None => c :: replace_from 0 s'
          end
      end
  end.

Definition replace_newlines (s : jsstring) : jsstring := replace_from 0 s.

Definition formatText (text : jsstring) : jsstring :=
  replace_newlines (trim text).

(** *** The normalisation as the specification words it

    Trim, then look at the maximal runs of whitespace: a run that holds a
    line break becomes one space, any other run stays as it is. *)

(** A finished run of whitespace, given in reverse. *)
Definition collapse_run (run : jsstring) : jsstring :=
  if existsb is_lf run then [SPACE] else reverse run.

(** [pending] is the whitespace run being read, in reverse. *)
Fixpoint collapse_runs (pending s : jsstring) : jsstring :=
  match s with
  | [] => collapse_run pending
  | c :: s' =>
      if is_ws c then collapse_runs (c :: pending) s'
      else collapse_run pending ++ c :: collapse_runs [] s'
  end.

Definition normalize_spec (text : jsstring) : jsstring :=
  collapse_runs [] (trim text).

(** ** The rule model *)

(** [ISelectValueBy<VT>] over the whole of [ISelectValueType]: a nested
    rule list, [undefined], or a string. *)
Inductive ISelectValueBy (F : Type) : Type :=
| VBUndefined
| VBString (name : jsstring)
| VBFields (fields : list F).
Arguments VBUndefined {F}.
Arguments VBString {F} name.
Arguments VBFields {F} fields.

(** [ISelectField].  [valueType] is kept as the string the rule payload
    carries: the evaluator has a branch for values outside the declared
    union.  [multi] is optional. *)
Inductive ISelectField : Type :=
| SelectField (varName selector valueType : jsstring)
              (valueBy : ISelectValueBy ISelectField) (multi : option bool).

Definition varName (f : ISelectField) : jsstring :=
  match f with SelectField n _ _ _ _ => n end.
Definition selector (f : ISelectField) : jsstring :=
  match f with SelectField _ s _ _ _ => s end.
Definition valueType (f : ISelectField) : jsstring :=
  match f with SelectField _ _ t _ _ => t end.
Definition valueBy (f : ISelectField) : ISelectValueBy ISelectField :=
  match f with SelectField _ _ _ b _ => b end.
Definition multi (f : ISelectField) : option bool :=
  match f with SelectField _ _ _ _ m => m end.

(** [if (multi)]: [undefined] and [false] are falsy. *)
Definition truthy (m : option bool) : bool := default false m.

(** ** Resolved values *)

(** [IDefaultFieldResult]: a string, a record, or an array of either.  A
    record is a JavaScript object used as a string-keyed map: the map holds
    the object's own properties and their values (the order in which the
    keys are enumerated, and the object's prototype, are not part of it).
    An array carries no element type at run time, so the empty array is
    one value. *)
Inductive IResolveFieldResult : Type :=
| RString (s : jsstring)
| RRecord (r : gmap jsstring IResolveFieldResult)
| RArray (l : list IResolveFieldResult).

Abbreviation IResolveFieldRecord := (gmap jsstring IResolveFieldResult).

(** [result[key] = v] on an object made by [{}].  Every key becomes an own
    property but [__proto__]: under that key the assignment goes to the
    setter inherited from [Object.prototype], which writes no own property
    (it replaces the prototype when [v] is an object and does nothing when
    [v] is a string). *)
Definition setProperty (key : jsstring) (v : IResolveFieldResult)
    (o : IResolveFieldRecord) : IResolveFieldRecord :=
  if bool_decide (key = js "__proto__") then o else <[key := v]> o.

(** ** Errors and outcomes *)

(** The [options] argument of [NodeOperationError]. *)
Inductive ErrorOptions : Type :=
| NoOptions
| OptMessage (message : jsstring)
| OptItemIndex (itemIndex : nat).

(** What the program throws: a [NodeOperationError] with the arguments
    the source gives its constructor, the [TypeError] of a [for ... of]
    over a value that is not iterable, an error raised by a helper of the
    host, or the error the parser library raises on a selector it cannot
    evaluate. *)
Inductive Error : Type :=
| NodeOperationError (message : jsstring) (options : ErrorOptions)
| TypeError_not_iterable
| HelperError (message : jsstring)
| SelectorError (message : jsstring).

(** What running a piece of the program gives: a value, a thrown error,
    or [Unmodelled] where the program makes the parser library change the
    document, which this development does not follow (see [attrOrEmpty]). *)
Inductive Outcome (A : Type) : Type :=
| Ok (a : A)
| Throw (e : Error)
| Unmodelled.
Arguments Ok {A} a.
Arguments Throw {A} e.
Arguments Unmodelled {A}.

Definition obind {A B} (f : A → Outcome B) (o : Outcome A) : Outcome B :=
  match o with
  | Ok a => f a
  | Throw e => Throw e
  | Unmodelled => Unmodelled
  end.

(** [els.forEach((el) => arr.push(f(el)))] where [f] may throw: the
    elements are visited in order and the first failure ends the loop. *)
Fixpoint forEach_push {A B} (f : A → Outcome B) (els : list A) : Outcome (list B) :=
  match els with
  | [] => Ok []
  | el :: els' =>
      match f el with
      | Ok b => match forEach_push f els' with
                | Ok bs => Ok (b :: bs)
                | Throw e => Throw e
                | Unmodelled => Unmodelled
                end
      | Throw e => Throw e
      | Unmodelled => Unmodelled
      end
  end.

(** ** The parser library

    [cheerio] is not part of the repository; the evaluator uses these of
    its queries, taken here as an interface over an abstract type of
    document nodes:
    - [find base selector] is [$base.find(selector).get()]: [inr] of the
      matched elements in the order the library returns them, or [inl] of
      the message of the error the library throws on a selector it cannot
      evaluate;
    - [text el] is [$(el).text()];
    - [attr el name] is [$(el).attr(name)] for a string [name] that is
      not empty, with [None] for [undefined];
    - [attribs el] is the attribute map of the element, which
      [$(el).attr(name)] returns when [name] is [undefined] or the empty
      string. *)
Class Cheerio (Node : Type) : Type := {
  find : Node → jsstring → jsstring + list Node;
  text : Node → jsstring;
  attr : Node → jsstring → option jsstring;
  attribs : Node → gmap jsstring jsstring;
}.

(** ** The evaluator *)

(** The message of the error thrown for a [valueType] outside the three
    known ones: the rule's name, then [: 非法的valueType: ] (the three
    ideographs are U+975E U+6CD5 U+7684), then the offending value. *)
Definition invalidValueType_message (varName valueType : jsstring) : jsstring :=
  varName ++ js ": " ++ [38750; 27861; 30340]%N ++ js "valueType: " ++ valueType.

Definition invalidValueType (varName valueType : jsstring) : Error :=
  NodeOperationError (invalidValueType_message varName valueType) NoOptions.

(** The three values of [valueType] the evaluator knows. *)
Definition recognized (valueType : jsstring) : Prop :=
  valueType = js "text" ∨ valueType = js "attr" ∨ valueType = js "object".

(** [rule_in g fields]: [g] is one of [fields] or sits in a nested rule
    list below one of them. *)
Inductive rule_in (g : ISelectField) : list ISelectField → Prop :=
| rule_in_here fields : g ∈ fields → rule_in g fields
| rule_in_nested f fields nested :
    f ∈ fields → valueBy f = VBFields nested → rule_in g nested → rule_in g fields.

Section Extractor.
Context {Node : Type} `{!Cheerio Node}.

(** [$(el).attr(valueBy as ISelectValueBy<'attr'>) || '']: a missing
    attribute and an empty one both give [''].  The cast does nothing at
    run time: with [valueBy] absent, and also with the empty string for a
    name, the library hands back the attribute map, an object, which [||]
    keeps; with an array the call is the library's setter, which changes
    the document and returns the selection, and is not modelled. *)
Definition attrOrEmpty (el : Node) (valueBy : ISelectValueBy ISelectField)
  : Outcome IResolveFieldResult :=
  match valueBy with
  | VBString name =>
      if bool_decide (name = []) then Ok (RRecord (RString <$> attribs el))
      else Ok (RString (default [] (attr el name)))
  | VBUndefined => Ok (RRecord (RString <$> attribs el))
  | VBFields _ => Unmodelled
  end.

(** One iteration of the [for (const field of fields)] loop of
    [resolveSelectFields]: [result] is the record built so far, the
    outcome is the record after the iteration.  [continue] is [Ok result];
    [$base.find(selector)] may throw.

    The recursive call [resolveSelectFields.call(this, valueBy, $, $(el))]
    is the local [nested]: over a rule list it runs the same loop from an
    empty record; over a string the loop visits its characters, none of
    which has a [selector], so every iteration is skipped; over
    [undefined] the [for ... of] throws a [TypeError]. *)
Fixpoint resolveField (field : ISelectField) (base : Node)
    (result : IResolveFieldRecord) {struct field} : Outcome IResolveFieldRecord :=
  match field with
  | SelectField varName selector valueType valueBy multi =>
      let nested (el : Node) : Outcome IResolveFieldRecord :=
        match valueBy with
        | VBFields fields =>
            (fix loop (fs : list ISelectField) (acc : IResolveFieldRecord) :=
               match fs with
               | [] => Ok acc
               | f :: fs' => obind (loop fs') (resolveField f el acc)
               end) fields ∅
        | VBString _ => Ok ∅
        | VBUndefined => Throw TypeError_not_iterable
        end in
      if bool_decide (selector = []) then Ok result
      else
        match find base selector with
        | inl message => Throw (SelectorError message)
        | inr target =>
            if truthy multi then
              let els := target in
              if bool_decide (valueType = js "text") then
                Ok (setProperty varName
                      (RArray ((λ el, RString (formatText (text el))) <$> els)) result)
              else if bool_decide (valueType = js "attr") then
                obind (λ attrArr, Ok (setProperty varName (RArray attrArr) result))
                      (forEach_push (λ el, attrOrEmpty el valueBy) els)
              else if bool_decide (valueType = js "object") then
                obind (λ subRecords,
                         Ok (setProperty varName (RArray (RRecord <$> subRecords)) result))
                      (forEach_push nested els)
              else Throw (invalidValueType varName valueType)
            else
              match head target with
              | None => Ok result
              | Some el =>
                  if bool_decide (valueType = js "text") then
                    Ok (setProperty varName (RString (formatText (text el))) result)
                  else if bool_decide (valueType = js "attr") then
                    obind (λ v, Ok (setProperty varName v result))
                          (attrOrEmpty el valueBy)
                  else if bool_decide (valueType = js "object") then
                    obind (λ r, Ok (setProperty varName (RRecord r) result)) (nested el)
                  else Throw (invalidValueType varName valueType)
              end
        end
  end.

(** The loop of [resolveSelectFields], from the record built so far. *)
Fixpoint resolveLoop (fields : list ISelectField) (base : Node)
    (result : IResolveFieldRecord) : Outcome IResolveFieldRecord :=
  match fields with
  | [] => Ok result
  | field :: fields' => obind (resolveLoop fields' base) (resolveField field base result)
  end.

(** [resolveSelectFields(fields, $, $base)]: [result] starts as [{}]. *)
Definition resolveSelectFields (fields : list ISelectField) (base : Node)
  : Outcome IResolveFieldRecord :=
  resolveLoop fields base ∅.

(** The recursive call, by the shape of [valueBy]. *)
Definition resolveNested (valueBy : ISelectValueBy ISelectField) (el : Node)
  : Outcome IResolveFieldRecord :=
  match valueBy with
  | VBFields fields => resolveSelectFields fields el
  | VBString _ => Ok ∅
  | VBUndefined => Throw TypeError_not_iterable
  end.

(** *** The evaluator with a record of the nodes it selects

    The same program, which also returns the elements it took out of a
    query result ([$target.get()] under [multi], [$target.get(0)]
    otherwise), in the order it took them, up to the point where it
    stopped.  It is used to state which nodes an evaluation can reach. *)
Definition Traced (A : Type) : Type := (list Node * Outcome A)%type.

Definition tbind {A B} (f : A → Traced B) (t : Traced A) : Traced B :=
  match t.2 with
  | Ok a => let r := f a in (t.1 ++ r.1, r.2)
  | Throw e => (t.1, Throw e)
  | Unmodelled => (t.1, Unmodelled)
  end.

Fixpoint forEach_push_traced {B} (f : Node → Traced B) (els : list Node)
  : Traced (list B) :=
  match els with
  | [] => ([], Ok [])
  | el :: els' =>
      tbind (λ b, tbind (λ bs, ([], Ok (b :: bs))) (forEach_push_traced f els')) (f el)
  end.

Fixpoint resolveField_traced (field : ISelectField) (base : Node)
    (result : IResolveFieldRecord) {struct field} : Traced IResolveFieldRecord :=
  match field with
  | SelectField varName selector valueType valueBy multi =>
      let nested (el : Node) : Traced IResolveFieldRecord :=
        match valueBy with
        | VBFields fields =>
            (fix loop (fs : list ISelectField) (acc : IResolveFieldRecord) :=
               match fs with
               | [] => ([], Ok acc)
               | f :: fs' => tbind (loop fs') (resolveField_traced f el acc)
               end) fields ∅
        | VBString _ => ([], Ok ∅)
        | VBUndefined => ([], Throw TypeError_not_iterable)
        end in
      if bool_decide (selector = []) then ([], Ok result)
      else
        match find base selector with
        | inl message => ([], Throw (SelectorError message))
        | inr target =>
            if truthy multi then
              let els := target in
              tbind (λ _ : unit,
                if bool_decide (valueType = js "text") then
                  ([], Ok (setProperty varName
                             (RArray ((λ el, RString (formatText (text el))) <$> els))
                             result))
                else if bool_decide (valueType = js "attr") then
                  ([], obind (λ attrArr, Ok (setProperty varName (RArray attrArr) result))
                             (forEach_push (λ el, attrOrEmpty el valueBy) els))
                else if bool_decide (valueType = js "object") then
                  tbind (λ subRecords,
                           ([], Ok (setProperty varName (RArray (RRecord <$> subRecords))
                                      result)))
                        (forEach_push_traced nested els)
                else ([], Throw (invalidValueType varName valueType)))
                (els, Ok ())
            else
              match head target with
              | None => ([], Ok result)
              | Some el =>
                  tbind (λ _ : unit,
                    if bool_decide (valueType = js "text") then
                      ([], Ok (setProperty varName (RString (formatText (text el))) result))
                    else if bool_decide (valueType = js "attr") then
                      ([], obind (λ v, Ok (setProperty varName v result))
                                 (attrOrEmpty el valueBy))
                    else if bool_decide (valueType = js "object") then
                      tbind (λ r, ([], Ok (setProperty varName (RRecord r) result)))
                            (nested el)
                    else ([], Throw (invalidValueType varName valueType)))
                    ([el], Ok ())
              end
        end
  end.

Fixpoint resolveLoop_traced (fields : list ISelectField) (base : Node)
    (result : IResolveFieldRecord) : Traced IResolveFieldRecord :=
  match fields with
  | [] => ([], Ok result)
  | field :: fields' =>
      tbind (resolveLoop_traced fields' base) (resolveField_traced field base result)
  end.

Definition resolveNested_traced (valueBy : ISelectValueBy ISelectField) (el : Node)
  : Traced IResolveFieldRecord :=
  match valueBy with
  | VBFields fields => resolveLoop_traced fields el ∅
  | VBString _ => ([], Ok ∅)
  | VBUndefined => ([], Throw TypeError_not_iterable)
  end.

(** The nodes an evaluation of [fields] under [base] selects. *)
Definition selected (fields : list ISelectField) (base : Node) : list Node :=
  (resolveLoop_traced fields base ∅).1.

End Extractor.

(** Modelled from the spec: the contract of the tree query, which is the
    library's and not in the repository.  The specification gives it as
    [find(node, selector)] returning an ordered sequence of nodes scoped to
    the descendants of [node].  [descendant x b] reads: [x] lies strictly
    below [b] in the document. *)
Class CheerioScoped (Node : Type) `{!Cheerio Node} : Type := {
  descendant : Node → Node → Prop;
  descendant_trans : ∀ x y z, descendant x y → descendant y z → descendant x z;
  find_descendant : ∀ base sel els x,
    find base sel = inr els → x ∈ els → descendant x base;
}.

(** ** The batch driver *)

(** What [get(item.json, dataPropertyName)] may hold: a markup string or
    an array of markup strings. *)
Inductive HtmlValue : Type :=
| HtmlString (html : jsstring)
| HtmlArray (htmls : list jsstring).

(** [if (!Array.isArray(htmlArray)) htmlArray = [htmlArray]] *)
Definition toHtmlArray (v : HtmlValue) : list jsstring :=
  match v with
  | HtmlString html => [html]
  | HtmlArray htmls => htmls
  end.

(** One input item together with the node parameters evaluated for it:
    - [sourceType], [dataPropertyName] and [rulesParams] are the three
      [getNodeParameter] reads ([rulesParams] after [String(...)]);
    - [json_get name] is [get(item.json, name)], [None] for [undefined];
    - [binary_get name] is [assertBinaryData] followed by
      [getBinaryDataBuffer(...).toString('utf-8')], either of which may
      throw. *)
Record Item : Type := {
  sourceType : jsstring;
  dataPropertyName : jsstring;
  rulesParams : jsstring;
  json_get : jsstring → option HtmlValue;
  binary_get : jsstring → Error + jsstring;
}.

(** What [JSON.parse(rulesParams)] gives, as far as the driver looks at
    it: a falsy value, an array of rules, or one other value taken as a
    rule. *)
Inductive ParsedRules : Type :=
| ParsedFalsy
| ParsedArray (rules : list ISelectField)
| ParsedSingle (rule : ISelectField).

(** [rules = JSON.parse(...) || []; if (!Array.isArray(rules)) rules = [rules]] *)
Definition toRules (p : ParsedRules) : list ISelectField :=
  match p with
  | ParsedFalsy => []
  | ParsedArray rules => rules
  | ParsedSingle rule => [rule]
  end.

(** An output item: [{ json, pairedItem: { item } }]. *)
Record INodeExecutionData : Type := {
  json : IResolveFieldRecord;
  pairedItem : nat;
}.

Definition rulesInvalid_message (rulesParams : jsstring) : jsstring :=
  js "Rules are invalid. Expected an array or an object, got " ++ rulesParams.

Definition noProperty_message (dataPropertyName : jsstring) : jsstring :=
  js "No property named " ++ [34%N] ++ dataPropertyName ++ [34%N] ++ js " exists!".

Section Driver.
Context {Node : Type} `{!Cheerio Node}.

(** [JSON.parse]: the parsed value, or the message of the error it
    throws. *)
Variable JSON_parse : jsstring → jsstring + ParsedRules.
(** [cheerio.load(html)] followed by [$.root()]. *)
Variable load : jsstring → Node.
(** [execError.message] as the host library sets it. *)
Variable message_of : Error → jsstring.

(** The inner [try]: parse the rules or throw the rules error. *)
Definition parseRules (rulesParams : jsstring) : Outcome (list ISelectField) :=
  match JSON_parse rulesParams with
  | inr parsed => Ok (toRules parsed)
  | inl message =>
      Throw (NodeOperationError (rulesInvalid_message rulesParams) (OptMessage message))
  end.

(** Lines 198-218: read the markup of the item as an array. *)
Definition readHtmlArray (it : Item) (idx : nat) : Outcome (list jsstring) :=
  if bool_decide (sourceType it = js "json") then
    match json_get it (dataPropertyName it) with
    | None =>
        Throw (NodeOperationError (noProperty_message (dataPropertyName it))
                                  (OptItemIndex idx))
    | Some value => Ok (toHtmlArray value)
    end
  else
    match binary_get it (dataPropertyName it) with
    | inl e => Throw e
    | inr html => Ok [html]
    end.

(** [for (const html of htmlArray)]: every document is evaluated and its
    record pushed on [returnData] at once; when one throws, what was
    pushed before stays. *)
Fixpoint pushAll (rules : list ISelectField) (idx : nat) (htmlArray : list jsstring)
    (returnData : list INodeExecutionData) : list INodeExecutionData * Outcome unit :=
  match htmlArray with
  | [] => (returnData, Ok ())
  | html :: htmlArray' =>
      match resolveSelectFields rules (load html) with
      | Ok r => pushAll rules idx htmlArray'
                  (returnData ++ [{| json := r; pairedItem := idx |}])
      | Throw e => (returnData, Throw e)
      | Unmodelled => (returnData, Unmodelled)
      end
  end.

(** The body of the outer [try] for the item at [idx]: [returnData]
    afterwards, and whether the body completed or threw. *)
Definition tryItem (it : Item) (idx : nat) (returnData : list INodeExecutionData)
  : list INodeExecutionData * Outcome unit :=
  match parseRules (rulesParams it) with
  | Ok rules =>
      match readHtmlArray it idx with
      | Ok htmlArray => pushAll rules idx htmlArray returnData
      | Throw e => (returnData, Throw e)
      | Unmodelled => (returnData, Unmodelled)
      end
  | Throw e => (returnData, Throw e)
  | Unmodelled => (returnData, Unmodelled)
  end.

(** [{ json: { error: execError.message }, pairedItem: { item: idx } }] *)
Definition errorItem (e : Error) (idx : nat) : INodeExecutionData :=
  {| json := {[ js "error" := RString (message_of e) ]}; pairedItem := idx |}.

(** [for (let idx = 0; idx < items.length; idx++)], from [idx] on. *)
Fixpoint executeLoop (continueOnFail : bool) (items : list Item) (idx : nat)
    (returnData : list INodeExecutionData) : Outcome (list INodeExecutionData) :=
  match items with
  | [] => Ok returnData
  | it :: items' =>
      match tryItem it idx returnData with
      | (returnData', Ok _) => executeLoop continueOnFail items' (S idx) returnData'
      | (returnData', Throw execError) =>
          if continueOnFail then
            executeLoop continueOnFail items' (S idx)
                        (returnData' ++ [errorItem execError idx])
          else Throw execError
      | (_, Unmodelled) => Unmodelled
      end
  end.

(** [execute]: [continueOnFail] is what [this.continueOnFail()] answers. *)
Definition execute (continueOnFail : bool) (items : list Item)
  : Outcome (list (list INodeExecutionData)) :=
  obind (λ returnData, Ok [returnData]) (executeLoop continueOnFail items 0 []).

(** What the item at [idx] adds to [returnData] in continue-on-failure
    mode: the records pushed by its body, then the error item if the
    body threw.  [None] when the body is not modelled. *)
Definition contribution (it : Item) (idx : nat) : option (list INodeExecutionData) :=
  match tryItem it idx [] with
  | (pushed, Ok _) => Some pushed
  | (pushed, Throw e) => Some (pushed ++ [errorItem e idx])
  | (_, Unmodelled) => None
  end.

(** The contributions of [items], the first of which is at [idx], one
    after the other. *)
Fixpoint contributions (items : list Item) (idx : nat) : option (list INodeExecutionData) :=
  match items with
  | [] => Some []
  | it :: items' =>
      match contribution it idx, contributions items' (S idx) with
      | Some c, Some cs => Some (c ++ cs)
      | _, _ => None
      end
  end.

End Driver.

(** ** A small document model

    A concrete reading of the interface, used to run the evaluator: parsed
    documents as trees, a node as a document together with the path from
    its root, and a selector language of [tag], [.class] and [tag.class];
    a selector with a bracket in it is refused, as the library refuses a
    selector it cannot parse, and the empty selector finds nothing. *)
Module Dom.

Inductive Tree : Type :=
| Text (data : jsstring)
| Element (name : jsstring) (attribs : list (jsstring * jsstring))
          (children : list Tree).

Record Node : Type := { doc : Tree; path : list nat }.

Fixpoint subtree (t : Tree) (p : list nat) : option Tree :=
  match p with
  | [] => Some t
  | i :: p' =>
      match t with
      | Element _ _ children =>
          match children !! i with
          | Some c => subtree c p'
          | None => None
          end
      | Text _ => None
      end
  end.

(** The elements strictly below [t], as paths from [t], in document
    order. *)
Fixpoint element_paths (t : Tree) : list (list nat) :=
  match t with
  | Text _ => []
  | Element _ _ children =>
      (fix go (ts : list Tree) (i : nat) : list (list nat) :=
         match ts with
         | [] => []
         | c :: ts' =>
             match c with
             | Element _ _ _ => [i] :: ((i ::.) <$> element_paths c)
             | Text _ => []
             end ++ go ts' (S i)
         end) children 0
  end.

Fixpoint text_of (t : Tree) : jsstring :=
  match t with
  | Text data => data
  | Element _ _ children =>
      (fix go (ts : list Tree) : jsstring :=
         match ts with
         | [] => []
         | c :: ts' => text_of c ++ go ts'
         end) children
  end.

Fixpoint assoc (name : jsstring) (attribs : list (jsstring * jsstring))
  : option jsstring :=
  match attribs with
  | [] => None
  | (k, v) :: attribs' => if bool_decide (k = name) then Some v else assoc name attribs'
  end.

(** The selector up to its first [.] and, if there is one, what comes
    after it. *)
Fixpoint split_dot (sel : jsstring) : jsstring * option jsstring :=
  match sel with
  | [] => ([], None)
  | c :: sel' =>
      if bool_decide (c = 46%N) then ([], Some sel')
      else let '(tag, cls) := split_dot sel' in (c :: tag, cls)
  end.

Definition matches (sel : jsstring) (t : Tree) : bool :=
  match t with
  | Text _ => false
  | Element name attribs _ =>
      let '(tag, cls) := split_dot sel in
      (bool_decide (tag = []) || bool_decide (tag = name))
      && match cls with
         | None => true
         | Some c => bool_decide (assoc (js "class") attribs = Some c)
         end
  end.

Definition matches_at (sel : jsstring) (t : Tree) (p : list nat) : bool :=
  match subtree t p with
  | Some t' => matches sel t'
  | None => false
  end.

Definition dom_find (base : Node) (sel : jsstring) : jsstring + list Node :=
  if bool_decide (91%N ∈ sel) then inl (js "selector not supported")
  else if bool_decide (sel = []) then inr []
  else
    match subtree (doc base) (path base) with
    | Some t =>
        inr ((λ p, {| doc := doc base; path := path base ++ p |})
               <$> filter (λ p, matches_at sel t p = true) (element_paths t))
    | None => inr []
    end.

Definition dom_text (el : Node) : jsstring :=
  match subtree (doc el) (path el) with
  | Some t => text_of t
  | None => []
  end.

Definition dom_attr (el : Node) (name : jsstring) : option jsstring :=
  match subtree (doc el) (path el) with
  | Some (Element _ attribs _) => assoc name attribs
  | _ => None
  end.

Definition dom_attribs (el : Node) : gmap jsstring jsstring :=
  match subtree (doc el) (path el) with
  | Some (Element _ attribs _) => list_to_map attribs
  | _ => ∅
  end.

#[export] Instance dom_cheerio : Cheerio Node :=
  {| find := dom_find; text := dom_text; attr := dom_attr; attribs := dom_attribs |}.

Definition dom_descendant (x b : Node) : Prop :=
  doc x = doc b ∧ ∃ q, q ≠ [] ∧ path x = path b ++ q.

Definition root (t : Tree) : Node := {| doc := t; path := [] |}.

End Dom.

(** * Properties *)

(** ** Text normalisation *)

Lemma is_lf_ws c : is_lf c = true → is_ws c = true.
Proof.
  unfold is_lf. intros ->%bool_decide_eq_true. reflexivity.
Qed.

Lemma not_ws_not_lf c : is_ws c = false → is_lf c = false.
Proof.
  intros Hws. destruct (is_lf c) eqn:E; [|done].
  apply is_lf_ws in E. congruence.
Qed.

(** [rest] does not go on with whitespace: a run that ends before it is
    maximal. *)
Definition run_end (rest : jsstring) : Prop :=
  match rest with
  | [] => True
  | c :: _ => is_ws c = false
  end.

Definition all_ws (w : jsstring) : Prop := Forall (λ c, is_ws c = true) w.

Lemma split_run s : ∃ w rest, s = w ++ rest ∧ all_ws w ∧ run_end rest.
Proof.
  induction s as [|c s (w & rest & -> & Hw & Hr)].
  - exists [], []. repeat split. constructor.
  - destruct (is_ws c) eqn:E.
    + exists (c :: w), rest. repeat split; [by constructor | done].
    + exists [], (c :: w ++ rest). repeat split; [constructor | done].
Qed.

Lemma drop_ws_run w rest : all_ws w → run_end rest → drop_ws (w ++ rest) = rest.
Proof.
  induction 1 as [|c w Hc _ IH]; intros Hr; simpl.
  - destruct rest as [|c r]; [done|]. simpl in *. by rewrite Hr.
  - rewrite Hc. by apply IH.
Qed.

Lemma drop_lf_no_lf w rest :
  existsb is_lf w = false → run_end rest → drop_lf (w ++ rest) = w ++ rest.
Proof.
  destruct w as [|c w]; simpl.
  - intros _ Hr. destruct rest as [|c r]; [done|]. simpl in *.
    by rewrite (not_ws_not_lf _ Hr).
  - intros [Hc _]%orb_false_iff. by rewrite Hc.
Qed.

Lemma match_pattern_run w rest :
  all_ws w → run_end rest →
  match_pattern (w ++ rest) = if existsb is_lf w then Some rest else None.
Proof.
  induction 1 as [|c w Hc Hw IH]; intros Hr.
  - destruct rest as [|c r]; [done|]. simpl in *.
    by rewrite Hr, (not_ws_not_lf _ Hr).
  - cbn [app match_pattern existsb]. rewrite Hc, (IH Hr).
    destruct (existsb is_lf w) eqn:E.
    + by rewrite orb_true_r.
    + rewrite orb_false_r. unfold match_nl_tail.
      destruct (is_lf c); [|done].
      by rewrite drop_lf_no_lf, drop_ws_run.
Qed.

Lemma replace_from_skip w rest :
  replace_from (length w) (w ++ rest) = replace_from 0 rest.
Proof.
  induction w as [|c w IH]; simpl; [|done].
  by destruct rest.
Qed.

Lemma replace_newlines_other c s :
  is_ws c = false → replace_newlines (c :: s) = c :: replace_newlines s.
Proof.
  intros Hc. unfold replace_newlines. cbn [replace_from match_pattern].
  rewrite Hc. unfold match_nl_tail. by rewrite (not_ws_not_lf _ Hc).
Qed.

Lemma replace_newlines_plain_run w rest :
  all_ws w → existsb is_lf w = false → run_end rest →
  replace_newlines (w ++ rest) = w ++ replace_newlines rest.
Proof.
  unfold replace_newlines.
  induction 1 as [|c w Hc Hw IH]; intros Hlf Hr; [done|].
  pose proof (match_pattern_run (c :: w) rest) as Hm.
  rewrite Hlf in Hm. cbn [app replace_from] in *.
  rewrite Hm; [|by constructor|done].
  simpl in Hlf. apply orb_false_iff in Hlf as [_ Hlf].
  by rewrite IH.
Qed.

Lemma replace_newlines_break_run w rest :
  all_ws w → existsb is_lf w = true → run_end rest →
  replace_newlines (w ++ rest) = SPACE :: replace_newlines rest.
Proof.
  unfold replace_newlines. intros Hw Hlf Hr.
  pose proof (match_pattern_run w rest Hw Hr) as Hm. rewrite Hlf in Hm.
  destruct w as [|c w]; [done|].
  cbn [app replace_from] in *. rewrite Hm.
  rewrite length_app, Nat.add_sub. by rewrite replace_from_skip.
Qed.

Lemma collapse_runs_run p w rest :
  all_ws w → run_end rest →
  collapse_runs p (w ++ rest) = collapse_run (reverse w ++ p) ++ collapse_runs [] rest.
Proof.
  intros Hw Hr. revert p.
  induction Hw as [|c w Hc _ IH]; intros p; simpl.
  - destruct rest as [|c r]; simpl in *.
    + unfold collapse_run at 2. simpl. by rewrite app_nil_r.
    + by rewrite Hr.
  - rewrite Hc, IH, reverse_cons, <- app_assoc. done.
Qed.

Lemma existsb_reverse {A} (f : A → bool) l : existsb f (reverse l) = existsb f l.
Proof.
  induction l as [|x l IH]; [done|].
  rewrite reverse_cons, existsb_app, IH. simpl.
  rewrite orb_false_r. apply orb_comm.
Qed.

Lemma replace_newlines_collapse s : replace_newlines s = collapse_runs [] s.
Proof.
  remember (length s) as n eqn:Hn.
  revert s Hn. induction (lt_wf n) as [n _ IH]. intros s ->.
  destruct s as [|c s]; [done|].
  destruct (is_ws c) eqn:Hc.
  - destruct (split_run (c :: s)) as (w & rest & Hs & Hw & Hr).
    assert (w ≠ []) as Hne.
    { intros ->. simpl in Hs. subst rest. simpl in Hr. congruence. }
    assert (length rest < length (c :: s)) as Hlen.
    { rewrite Hs, length_app. destruct w; [done|]. simpl. lia. }
    rewrite Hs, collapse_runs_run, app_nil_r by done.
    unfold collapse_run. rewrite existsb_reverse, reverse_involutive.
    destruct (existsb is_lf w) eqn:Hlf.
    + rewrite replace_newlines_break_run by done.
      simpl. f_equal. by eapply IH.
    + rewrite replace_newlines_plain_run by done.
      f_equal. by eapply IH.
  - rewrite replace_newlines_other by done. simpl. rewrite Hc.
    unfold collapse_run. simpl. f_equal.
    eapply IH; [|done]. simpl. lia.
Qed.

Lemma formatText_normalize text : formatText text = normalize_spec text.
Proof. apply replace_newlines_collapse. Qed.

Lemma drop_ws_split s : ∃ pre, s = pre ++ drop_ws s ∧ all_ws pre ∧ run_end (drop_ws s).
Proof.
  induction s as [|c s (pre & Hs & Hpre & Hend)]; simpl.
  - exists []. repeat split. constructor.
  - destruct (is_ws c) eqn:Hc.
    + exists (c :: pre). split_and!; [simpl; congruence|by constructor|done].
    + exists []. split_and!; [done|constructor|done].
Qed.

(** [trim] takes a run of whitespace off each end and leaves none there. *)
Lemma trim_split t :
  ∃ lead trail : jsstring,
    t = lead ++ trim t ++ trail ∧ all_ws lead ∧ all_ws trail
    ∧ run_end (trim t) ∧ run_end (reverse (trim t)).
Proof.
  destruct (drop_ws_split t) as (pre & Ht & Hpre & Hhead).
  destruct (drop_ws_split (reverse (drop_ws t))) as (post & Hu & Hpost & Hlast).
  assert (drop_ws t = trim t ++ reverse post) as Hu'.
  { unfold trim. by rewrite <- reverse_app, <- Hu, reverse_involutive. }
  exists pre, (reverse post). split_and!.
  - by rewrite <- Hu'.
  - done.
  - unfold all_ws. by rewrite Forall_reverse.
  - rewrite Hu' in Hhead. by destruct (trim t).
  - unfold trim. by rewrite reverse_involutive.
Qed.

Lemma collapse_run_no_lf p : existsb is_lf (collapse_run p) = false.
Proof.
  unfold collapse_run. destruct (existsb is_lf p) eqn:E; [done|].
  by rewrite existsb_reverse.
Qed.

Lemma collapse_runs_no_lf p s : existsb is_lf (collapse_runs p s) = false.
Proof.
  revert p. induction s as [|c s IH]; intros p; simpl.
  - apply collapse_run_no_lf.
  - destruct (is_ws c) eqn:Hc; [apply IH|].
    rewrite existsb_app, collapse_run_no_lf. simpl.
    by rewrite (not_ws_not_lf _ Hc), IH.
Qed.

Lemma collapse_runs_single_line p s :
  existsb is_lf p = false → existsb is_lf s = false →
  collapse_runs p s = reverse p ++ s.
Proof.
  revert p. induction s as [|c s IH]; intros p Hp Hs; simpl in *.
  - unfold collapse_run. by rewrite Hp, app_nil_r.
  - apply orb_false_iff in Hs as [Hc Hs].
    destruct (is_ws c).
    + rewrite IH; [|simpl; by rewrite Hc|done].
      by rewrite reverse_cons, <- app_assoc.
    + unfold collapse_run. rewrite Hp. f_equal.
      by rewrite (IH []).
Qed.

(** ** The evaluator: equations *)

(** Induction over rules that reaches into nested rule lists. *)
Definition nested_all (P : ISelectField → Prop) (vb : ISelectValueBy ISelectField) : Prop :=
  match vb with
  | VBFields fields => Forall P fields
  | _ => True
  end.

Lemma ISelectField_nested_ind (P : ISelectField → Prop) :
  (∀ n s t vb m, nested_all P vb → P (SelectField n s t vb m)) →
  ∀ f, P f.
Proof.
  intros step.
  refine (fix IH f :=
    match f with
    | SelectField n s t vb m =>
        step n s t vb m
          match vb return nested_all P vb with
          | VBFields fields =>
              (fix go fs : Forall P fs :=
                 match fs with
                 | [] => @List.Forall_nil _ P
                 | g :: fs' => @List.Forall_cons _ P g fs' (IH g) (go fs')
                 end) fields
          | _ => I
          end
    end).
Qed.

Section ExtractorFacts.
Context {Node : Type} `{!Cheerio Node}.

Implicit Types (field f g : ISelectField) (fields pre post : list ISelectField).
Implicit Types (base el : Node) (result r : IResolveFieldRecord).

(** *** Writing a property *)

Lemma setProperty_own (key : jsstring) (v : IResolveFieldResult) (o : IResolveFieldRecord) :
  key ≠ js "__proto__" → setProperty key v o = <[key := v]> o.
Proof. intros Hkey. unfold setProperty. by rewrite bool_decide_eq_false_2. Qed.

Lemma setProperty_proto (v : IResolveFieldResult) (o : IResolveFieldRecord) :
  setProperty (js "__proto__") v o = o.
Proof. unfold setProperty. by rewrite bool_decide_eq_true_2. Qed.

Lemma setProperty_union (key : jsstring) (v : IResolveFieldResult) (o : IResolveFieldRecord) :
  setProperty key v o = setProperty key v ∅ ∪ o.
Proof.
  unfold setProperty. case_bool_decide.
  - by rewrite (left_id_L ∅ (∪)).
  - by rewrite <- insert_union_l, (left_id_L ∅ (∪)).
Qed.

Lemma setProperty_adds (key : jsstring) (v : IResolveFieldResult) :
  setProperty key v ∅ = ∅ ∨ setProperty key v ∅ = ({[key := v]} : IResolveFieldRecord).
Proof. unfold setProperty. case_bool_decide; auto. Qed.

(** [resolveField] with its recursive call named. *)
Lemma resolveField_unfold n s t vb m base result :
  resolveField (SelectField n s t vb m) base result =
  if bool_decide (s = []) then Ok result
  else
    match find base s with
    | inl message => Throw (SelectorError message)
    | inr els =>
        if truthy m then
          if bool_decide (t = js "text") then
            Ok (setProperty n (RArray ((λ el, RString (formatText (text el))) <$> els)) result)
          else if bool_decide (t = js "attr") then
            obind (λ attrArr, Ok (setProperty n (RArray attrArr) result))
                  (forEach_push (λ el, attrOrEmpty el vb) els)
          else if bool_decide (t = js "object") then
            obind (λ subRecords, Ok (setProperty n (RArray (RRecord <$> subRecords)) result))
                  (forEach_push (resolveNested vb) els)
          else Throw (invalidValueType n t)
        else
          match head els with
          | None => Ok result
          | Some el =>
              if bool_decide (t = js "text") then
                Ok (setProperty n (RString (formatText (text el))) result)
              else if bool_decide (t = js "attr") then
                obind (λ v, Ok (setProperty n v result)) (attrOrEmpty el vb)
              else if bool_decide (t = js "object") then
                obind (λ r, Ok (setProperty n (RRecord r) result)) (resolveNested vb el)
              else Throw (invalidValueType n t)
          end
    end.
Proof.
  assert (∀ fields el acc,
    (fix loop (fs : list ISelectField) (acc : IResolveFieldRecord) :=
       match fs with
       | [] => Ok acc
       | f :: fs' => obind (loop fs') (resolveField f el acc)
       end) fields acc = resolveLoop fields el acc) as Hloop.
  { induction fields as [|f fields IH]; intros el acc; [done|].
    simpl. destruct (resolveField f el acc); simpl; auto. }
  assert (∀ el,
    match vb with
    | VBFields fields =>
        (fix loop (fs : list ISelectField) (acc : IResolveFieldRecord) :=
           match fs with
           | [] => Ok acc
           | f :: fs' => obind (loop fs') (resolveField f el acc)
           end) fields ∅
    | VBString _ => Ok ∅
    | VBUndefined => Throw TypeError_not_iterable
    end = resolveNested vb el) as Hnested.
  { intros el. destruct vb; simpl; [done..|]. apply Hloop. }
  cbn [resolveField].
  case_bool_decide; [done|]. destruct (find base s) as [message|els]; [done|].
  repeat case_bool_decide; try done; destruct (truthy m); try done.
  - f_equal. clear -Hnested. induction els as [|el els IH]; [done|].
    simpl. rewrite Hnested, IH. done.
  - destruct (head els); [|done]. by rewrite Hnested.
Qed.

Lemma resolveLoop_app pre post base result :
  resolveLoop (pre ++ post) base result =
  obind (resolveLoop post base) (resolveLoop pre base result).
Proof.
  revert result. induction pre as [|f pre IH]; intros result; [done|].
  simpl. destruct (resolveField f base result); simpl; auto.
Qed.

(** Case analysis on the calls a rule makes. *)
Ltac case_calls :=
  repeat match goal with
  | |- context [find ?b ?s] => destruct (find b s); simpl
  | |- context [head ?l] => destruct (head l); simpl
  | |- context [forEach_push ?f ?l] => destruct (forEach_push f l); simpl
  | |- context [attrOrEmpty ?el ?vb] => destruct (attrOrEmpty el vb); simpl
  | |- context [resolveNested ?vb ?el] => destruct (resolveNested vb el); simpl
  end.

(** A rule does not read the record built so far: it adds to it what it
    adds to the empty record. *)
Lemma resolveField_result f base result :
  resolveField f base result = obind (λ d, Ok (d ∪ result)) (resolveField f base ∅).
Proof.
  assert (∀ v, setProperty (varName f) v result = setProperty (varName f) v ∅ ∪ result)
    as Hins by (intros; apply setProperty_union).
  destruct f as [n s t vb m]. simpl in Hins. rewrite !resolveField_unfold.
  repeat case_bool_decide; simpl; rewrite ?(left_id_L ∅ (∪)); try done;
    case_calls; rewrite ?(left_id_L ∅ (∪)), ?Hins; try done;
    destruct (truthy m); simpl; rewrite ?(left_id_L ∅ (∪)), ?Hins; try done;
    case_calls; rewrite ?(left_id_L ∅ (∪)), ?Hins; done.
Qed.

(** What a rule adds: nothing, or one value under its own name, which is
    then not [__proto__]. *)
Lemma resolveField_adds_own f base d :
  resolveField f base ∅ = Ok d →
  d = ∅ ∨ (varName f ≠ js "__proto__" ∧ ∃ v, d = {[varName f := v]}).
Proof.
  assert (∀ v d, Ok (setProperty (varName f) v ∅) = Ok d →
                 d = ∅ ∨ (varName f ≠ js "__proto__" ∧ ∃ w, d = {[varName f := w]}))
    as Hset.
  { intros v d' [= <-]. unfold setProperty. case_bool_decide; eauto. }
  destruct f as [n s t vb m]. rewrite resolveField_unfold. simpl in *.
  case_bool_decide; [intros [= <-]; by left|].
  destruct (find base s) as [message|els]; [done|].
  destruct (truthy m).
  - repeat case_bool_decide; try done; case_calls; try done; eauto.
  - destruct (head els); [|intros [= <-]; by left].
    repeat case_bool_decide; try done; case_calls; try done; eauto.
Qed.

Lemma resolveField_adds f base d :
  resolveField f base ∅ = Ok d → d = ∅ ∨ ∃ v, d = {[varName f := v]}.
Proof. intros [->|[_ ?]]%resolveField_adds_own; auto. Qed.

(** A rule named [__proto__] leaves the record as it is. *)
Lemma resolveField_proto f base result result' :
  varName f = js "__proto__" → resolveField f base result = Ok result' → result' = result.
Proof.
  intros Hname. rewrite resolveField_result.
  destruct (resolveField f base ∅) as [d| |] eqn:E; simpl; [|done..].
  intros [= <-]. destruct (resolveField_adds_own _ _ _ E) as [->|[? _]]; [|done].
  by rewrite (left_id_L ∅ (∪)).
Qed.

(** A rule leaves the other keys alone. *)
Lemma resolveField_frame f base result result' k :
  resolveField f base result = Ok result' → varName f ≠ k →
  result' !! k = result !! k.
Proof.
  rewrite resolveField_result. intros H Hk.
  destruct (resolveField f base ∅) as [d| |] eqn:E; simplify_eq/=.
  destruct (resolveField_adds _ _ _ E) as [->|[v ->]].
  - by rewrite (left_id_L ∅ (∪)).
  - rewrite <- insert_union_singleton_l. by rewrite lookup_insert_ne.
Qed.

Lemma resolveLoop_frame fields base result result' k :
  resolveLoop fields base result = Ok result' →
  Forall (λ g, varName g ≠ k) fields →
  result' !! k = result !! k.
Proof.
  intros H Hk. revert result H.
  induction Hk as [|f fields Hf _ IH]; intros result H; simpl in H.
  - by simplify_eq.
  - destruct (resolveField f base result) as [r1| |] eqn:E; simplify_eq/=.
    rewrite (IH _ H). by eapply resolveField_frame.
Qed.

(** The last rule to write a name decides its value. *)
Lemma resolveLoop_last_writer pre f post base result result' v :
  resolveLoop (pre ++ f :: post) base result = Ok result' →
  resolveField f base ∅ = Ok {[varName f := v]} →
  Forall (λ g, varName g ≠ varName f) post →
  result' !! varName f = Some v.
Proof.
  rewrite resolveLoop_app. intros H Hf Hpost.
  destruct (resolveLoop pre base result) as [rp| |]; simplify_eq/=.
  rewrite (resolveField_result f base rp), Hf in H. simpl in H.
  rewrite (resolveLoop_frame _ _ _ _ _ H Hpost).
  rewrite <- insert_union_singleton_l. apply lookup_insert_eq.
Qed.

(** A rule that is skipped can be struck from the list. *)
Lemma resolveLoop_skip pre f post base result :
  (∀ r, resolveField f base r = Ok r) →
  resolveLoop (pre ++ f :: post) base result = resolveLoop (pre ++ post) base result.
Proof.
  intros Hskip. rewrite !resolveLoop_app.
  destruct (resolveLoop pre base result); simpl; [|done..].
  by rewrite Hskip.
Qed.

(** A rule that throws ends the loop, whatever follows it. *)
Lemma resolveLoop_throw pre f post base result rp e :
  resolveLoop pre base result = Ok rp →
  resolveField f base rp = Throw e →
  resolveLoop (pre ++ f :: post) base result = Throw e.
Proof.
  intros Hpre Hf. rewrite resolveLoop_app, Hpre. simpl. by rewrite Hf.
Qed.

Lemma forEach_push_total {A B} (g : A → B) (xs : list A) :
  forEach_push (λ x, Ok (g x)) xs = Ok (g <$> xs).
Proof.
  induction xs as [|x xs IH]; [done|]. simpl. by rewrite IH.
Qed.

Lemma forEach_push_throw {A B} (g : A → Outcome B) xs1 (y : A) xs2 e :
  Forall (λ x, ∃ b, g x = Ok b) xs1 → g y = Throw e →
  forEach_push g (xs1 ++ y :: xs2) = Throw e.
Proof.
  induction 1 as [|x xs1 [b Hb] _ IH]; intros He; simpl.
  - by rewrite He.
  - by rewrite Hb, IH.
Qed.

Lemma forEach_push_Forall2 {A B} (g : A → Outcome B) xs bs :
  Forall2 (λ x b, g x = Ok b) xs bs → forEach_push g xs = Ok bs.
Proof.
  induction 1 as [|x b xs bs Hx _ IH]; [done|]. simpl. by rewrite Hx, IH.
Qed.

(** A rule that is not [multi] and finds nothing is skipped. *)
Lemma resolveField_no_match f base result :
  truthy (multi f) = false → find base (selector f) = inr [] →
  resolveField f base result = Ok result.
Proof.
  destruct f as [n s t vb m]. cbn [multi selector]. intros Hm Hfind.
  rewrite resolveField_unfold, Hm, Hfind. simpl. by case_bool_decide.
Qed.

(** A rule without a selector is skipped. *)
Lemma resolveField_no_selector f base result :
  selector f = [] → resolveField f base result = Ok result.
Proof.
  destruct f as [n s t vb m]. cbn [selector]. intros ->.
  by rewrite resolveField_unfold.
Qed.

(** What a rule with an unknown [valueType] does. *)
Lemma resolveField_unrecognized f base result :
  ¬ recognized (valueType f) →
  resolveField f base result =
  if bool_decide (selector f = []) then Ok result
  else
    match find base (selector f) with
    | inl message => Throw (SelectorError message)
    | inr els =>
        if truthy (multi f) then Throw (invalidValueType (varName f) (valueType f))
        else match head els with
             | None => Ok result
             | Some _ => Throw (invalidValueType (varName f) (valueType f))
             end
    end.
Proof.
  destruct f as [n s t vb m]. cbn [multi selector varName valueType].
  unfold recognized. intros Ht. rewrite resolveField_unfold.
  case_bool_decide; [done|]. destruct (find base s) as [message|els]; [done|].
  repeat case_bool_decide; try done; naive_solver.
Qed.

(** C1. A rule with [multi] false (or absent) whose selector matches no
    node under the context node is skipped without an error: the record is
    left as it was, so the rule can be struck from the list, and its name
    is not a key of the output unless another rule of the list carries the
    same name. *)
Theorem single_no_match_omits_key f base :
  truthy (multi f) = false →
  find base (selector f) = inr [] →
  (∀ result, resolveField f base result = Ok result)
  ∧ resolveSelectFields [f] base = Ok ∅
  ∧ (∀ pre post,
       resolveSelectFields (pre ++ f :: post) base = resolveSelectFields (pre ++ post) base)
  ∧ (∀ pre post result,
       resolveSelectFields (pre ++ f :: post) base = Ok result →
       Forall (λ g, varName g ≠ varName f) (pre ++ post) →
       result !! varName f = None).
Proof.
  intros Hm Hfind.
  assert (∀ result, resolveField f base result = Ok result) as Hskip
    by (intros; by apply resolveField_no_match).
  split_and!.
  - done.
  - unfold resolveSelectFields. simpl. by rewrite Hskip.
  - intros. by apply resolveLoop_skip.
  - intros pre post result H Hnames. unfold resolveSelectFields in H.
    rewrite resolveLoop_skip in H by done.
    by rewrite (resolveLoop_frame _ _ _ _ _ H Hnames).
Qed.

(** C2 (amended). A [multi] rule of a known kind, with a selector that is
    not empty and matches no node and a name other than [__proto__], writes
    its name with the empty array, and that is what the output holds unless
    a later rule writes the same name.  A rule without a selector, and a
    rule named [__proto__], leave the record as it is. *)
Theorem multi_no_match_empty_sequence f base :
  truthy (multi f) = true →
  selector f ≠ [] →
  find base (selector f) = inr [] →
  recognized (valueType f) →
  varName f ≠ js "__proto__" →
  (∀ result, resolveField f base result = Ok (<[varName f := RArray []]> result))
  ∧ resolveSelectFields [f] base = Ok {[varName f := RArray []]}
  ∧ (∀ pre post result,
       resolveSelectFields (pre ++ f :: post) base = Ok result →
       Forall (λ g, varName g ≠ varName f) post →
       result !! varName f = Some (RArray []))
  ∧ (∀ g other result, selector g = [] → resolveField g other result = Ok result)
  ∧ (∀ g other result result',
       varName g = js "__proto__" → resolveField g other result = Ok result' →
       result' = result).
Proof.
  intros Hm Hsel Hfind Hkind Hname.
  assert (∀ result, resolveField f base result = Ok (<[varName f := RArray []]> result))
    as Hwrite.
  { intros result. destruct f as [n s t vb m]. cbn [multi selector varName valueType] in *.
    rewrite resolveField_unfold, Hm, Hfind. simpl.
    rewrite <- (setProperty_own n) by done.
    destruct Hkind as [->| [->| ->]]; repeat case_bool_decide; done. }
  split_and!.
  - done.
  - unfold resolveSelectFields. simpl. by rewrite Hwrite.
  - intros pre post result H Hpost.
    eapply resolveLoop_last_writer; [exact H| |done].
    by rewrite Hwrite.
  - intros g other result. apply resolveField_no_selector.
  - intros g other result result'. apply resolveField_proto.
Qed.

(** What an attribute rule reads from a node under a name that is not
    empty. *)
Lemma attrOrEmpty_named el name :
  name ≠ [] → attrOrEmpty el (VBString name) = Ok (RString (default [] (attr el name))).
Proof. intros Hname. unfold attrOrEmpty. by rewrite bool_decide_eq_false_2. Qed.

(** Reading an attribute never throws. *)
Lemma attrOrEmpty_no_throw el vb e : attrOrEmpty el vb ≠ Throw e.
Proof. destruct vb; simpl; try case_bool_decide; done. Qed.


Lemma invalidValueType_message_prefix n t :
  ∃ rest, invalidValueType_message n t = n ++ rest.
Proof. unfold invalidValueType_message. eauto. Qed.

(** An error of a nested evaluation is the error of the object rule that
    asked for it: at the first match when the rule is not [multi], at the
    first matched node whose nested evaluation fails when it is. *)
Lemma nested_throw_propagates n s nested m outer result e :
  s ≠ [] →
  (truthy m = false →
   ∀ els el, find outer s = inr els → head els = Some el →
     resolveSelectFields nested el = Throw e →
     resolveField (SelectField n s (js "object") (VBFields nested) m) outer result
     = Throw e)
  ∧ (truthy m = true →
     ∀ els1 el els2, find outer s = inr (els1 ++ el :: els2) →
       Forall (λ x, ∃ r, resolveSelectFields nested x = Ok r) els1 →
       resolveSelectFields nested el = Throw e →
       resolveField (SelectField n s (js "object") (VBFields nested) m) outer result
       = Throw e).
Proof.
  intros Hs. split.
  - intros Hm els el Hfind Hel Hthrow.
    rewrite resolveField_unfold, Hm, Hfind, Hel.
    repeat case_bool_decide; try done.
    change (resolveNested (VBFields nested) el) with (resolveSelectFields nested el).
    by rewrite Hthrow.
  - intros Hm els1 el els2 Hfind Hbefore Hthrow.
    rewrite resolveField_unfold, Hm, Hfind.
    repeat case_bool_decide; try done.
    change (resolveNested (VBFields nested)) with (resolveSelectFields nested).
    by rewrite (forEach_push_throw _ _ _ _ e Hbefore Hthrow).
Qed.

(** C5 (amended). A rule with an unknown [valueType] raises the invalid
    rule error, whose message starts with the rule's name, as soon as it is
    reached with a selector whose query succeeds and either [multi] set or
    a matching node; the error ends the whole [resolveSelectFields] call,
    whatever rules follow, and an object rule whose nested evaluation ends
    so passes the error on as its own: at its first match when it is not
    [multi], at its first matched node that fails when it is.  A rule of an
    unknown kind without a selector, or not [multi] and without a match, is
    skipped, and one whose selector the library refuses throws the
    library's error. *)
Theorem invalid_valueType_throws f base els :
  ¬ recognized (valueType f) →
  selector f ≠ [] →
  find base (selector f) = inr els →
  truthy (multi f) = true ∨ els ≠ [] →
  (∀ result,
     resolveField f base result = Throw (invalidValueType (varName f) (valueType f)))
  ∧ (∃ rest, invalidValueType_message (varName f) (valueType f) = varName f ++ rest)
  ∧ (∀ pre post rp,
       resolveSelectFields pre base = Ok rp →
       resolveSelectFields (pre ++ f :: post) base
       = Throw (invalidValueType (varName f) (valueType f)))
  ∧ (∀ n s m outer result pre post rp matches,
       s ≠ [] → truthy m = false →
       find outer s = inr matches → head matches = Some base →
       resolveSelectFields pre base = Ok rp →
       resolveField (SelectField n s (js "object") (VBFields (pre ++ f :: post)) m)
                    outer result
       = Throw (invalidValueType (varName f) (valueType f)))
  ∧ (∀ n s m outer result pre post rp before after,
       s ≠ [] → truthy m = true →
       find outer s = inr (before ++ base :: after) →
       Forall (λ x, ∃ r, resolveSelectFields (pre ++ f :: post) x = Ok r) before →
       resolveSelectFields pre base = Ok rp →
       resolveField (SelectField n s (js "object") (VBFields (pre ++ f :: post)) m)
                    outer result
       = Throw (invalidValueType (varName f) (valueType f)))
  ∧ (∀ n s nested m outer result e,
       s ≠ [] →
       (truthy m = false →
        ∀ matches el, find outer s = inr matches → head matches = Some el →
          resolveSelectFields nested el = Throw e →
          resolveField (SelectField n s (js "object") (VBFields nested) m) outer result
          = Throw e)
       ∧ (truthy m = true →
          ∀ before el after, find outer s = inr (before ++ el :: after) →
            Forall (λ x, ∃ r, resolveSelectFields nested x = Ok r) before →
            resolveSelectFields nested el = Throw e →
            resolveField (SelectField n s (js "object") (VBFields nested) m) outer result
            = Throw e))
  ∧ (∀ g other result,
       ¬ recognized (valueType g) →
       resolveField g other result =
       if bool_decide (selector g = []) then Ok result
       else
         match find other (selector g) with
         | inl message => Throw (SelectorError message)
         | inr matches =>
             if truthy (multi g) then Throw (invalidValueType (varName g) (valueType g))
             else match head matches with
                  | None => Ok result
                  | Some _ => Throw (invalidValueType (varName g) (valueType g))
                  end
         end).
Proof.
  intros Hkind Hsel Hfind Hreach.
  assert (∀ result,
    resolveField f base result = Throw (invalidValueType (varName f) (valueType f)))
    as Hthrow.
  { intros result. rewrite resolveField_unrecognized, Hfind by done.
    case_bool_decide; [done|].
    destruct Hreach as [->|Hels]; [done|].
    destruct (truthy (multi f)); [done|]. by destruct els. }
  assert (∀ pre post rp,
    resolveSelectFields pre base = Ok rp →
    resolveSelectFields (pre ++ f :: post) base
    = Throw (invalidValueType (varName f) (valueType f))) as Hseq.
  { intros pre post rp Hpre. by eapply resolveLoop_throw. }
  split_and!.
  - done.
  - apply invalidValueType_message_prefix.
  - done.
  - intros n s m outer result pre post rp matches Hs Hm Hmatches Hhead Hpre.
    eapply (proj1 (nested_throw_propagates _ _ _ _ _ _ _ Hs)); eauto.
  - intros n s m outer result pre post rp before after Hs Hm Hmatches Hbefore Hpre.
    eapply (proj2 (nested_throw_propagates _ _ _ _ _ _ _ Hs)); eauto.
  - intros. by apply nested_throw_propagates.
  - intros g other result. apply resolveField_unrecognized.
Qed.

(** C10. A rule with an unknown [valueType], [multi] false and no matching
    node raises nothing: the rule is skipped and the rules after it are
    evaluated as if it were not there.  When such a rule throws, it is
    either because the library refused its selector, or with the invalid
    rule error, and then the query succeeded and the rule was [multi] or a
    node matched. *)
Theorem invalid_valueType_no_match_skipped f base :
  ¬ recognized (valueType f) →
  truthy (multi f) = false →
  find base (selector f) = inr [] →
  (∀ result, resolveField f base result = Ok result)
  ∧ (∀ pre post,
       resolveSelectFields (pre ++ f :: post) base = resolveSelectFields (pre ++ post) base)
  ∧ (∀ g other result e,
       ¬ recognized (valueType g) →
       resolveField g other result = Throw e →
       (∃ message, find other (selector g) = inl message ∧ e = SelectorError message)
       ∨ (e = invalidValueType (varName g) (valueType g)
          ∧ ∃ els, find other (selector g) = inr els
                   ∧ (truthy (multi g) = true ∨ els ≠ []))).
Proof.
  intros Hkind Hm Hfind. split_and!.
  - intros result. rewrite resolveField_unrecognized, Hm, Hfind by done.
    simpl. by case_bool_decide.
  - intros pre post. apply resolveLoop_skip. intros r.
    by apply resolveField_no_match.
  - intros g other result e Hg. rewrite resolveField_unrecognized by done.
    case_bool_decide; [done|].
    destruct (find other (selector g)) as [message|els]; [intros [= <-]; eauto|].
    destruct (truthy (multi g)); [intros [= <-]; eauto 6|].
    destruct els; simpl; [done|].
    intros [= <-]. right. split; [done|]. eexists. split; [done|]. by right.
Qed.

(** What a [multi] rule of each known kind writes: one value for each
    matched node, in the order of the query result. *)
Lemma resolveField_multi_text n s vb m base els result :
  s ≠ [] → truthy m = true → find base s = inr els →
  resolveField (SelectField n s (js "text") vb m) base result
  = Ok (setProperty n (RArray ((λ el, RString (formatText (text el))) <$> els)) result).
Proof.
  intros Hs Hm Hfind. rewrite resolveField_unfold, Hm, Hfind. by case_bool_decide.
Qed.

Lemma resolveField_multi_attr n s name m base els result :
  s ≠ [] → name ≠ [] → truthy m = true → find base s = inr els →
  resolveField (SelectField n s (js "attr") (VBString name) m) base result
  = Ok (setProperty n (RArray ((λ el, RString (default [] (attr el name))) <$> els)) result).
Proof.
  intros Hs Hname Hm Hfind. rewrite resolveField_unfold, Hm, Hfind.
  case_bool_decide; [done|]. simpl.
  rewrite (forEach_push_Forall2 _ els
             ((λ el, RString (default [] (attr el name))) <$> els)); [done|].
  apply Forall2_fmap_r, Forall_Forall2_diag, Forall_forall.
  intros el _. by apply attrOrEmpty_named.
Qed.

Lemma resolveField_multi_object n s fields m base els result records :
  s ≠ [] → truthy m = true → find base s = inr els →
  Forall2 (λ el r, resolveSelectFields fields el = Ok r) els records →
  resolveField (SelectField n s (js "object") (VBFields fields) m) base result
  = Ok (setProperty n (RArray (RRecord <$> records)) result).
Proof.
  intros Hs Hm Hfind Hrec. rewrite resolveField_unfold, Hm, Hfind.
  case_bool_decide; [done|].
  change (resolveNested (VBFields fields)) with (resolveSelectFields fields).
  by rewrite (forEach_push_Forall2 _ _ _ Hrec).
Qed.

(** C7. Rules are evaluated in the order of the list: a list is evaluated
    as its front part and then, from the record that gives, its back part
    (a failure of the front part is the failure of the whole); so of two
    rules with one name the later one decides the value.  A [multi] rule
    of any known kind lists one value for each matched node in the order of
    the query result, however many nodes match; for matches [A; B; C] the
    values of [A], [B], [C]. *)
Theorem evaluation_order_preserved base :
  (∀ pre post,
     resolveSelectFields (pre ++ post) base
     = obind (resolveLoop post base) (resolveSelectFields pre base))
  ∧ (∀ pre f post result v,
       resolveSelectFields (pre ++ f :: post) base = Ok result →
       resolveField f base ∅ = Ok {[varName f := v]} →
       Forall (λ g, varName g ≠ varName f) post →
       result !! varName f = Some v)
  ∧ (∀ f1 f2 v1 v2,
       varName f1 = varName f2 →
       resolveField f1 base ∅ = Ok {[varName f1 := v1]} →
       resolveField f2 base ∅ = Ok {[varName f2 := v2]} →
       resolveSelectFields [f1; f2] base = Ok {[varName f2 := v2]})
  ∧ (∀ n s vb m els result,
       s ≠ [] → truthy m = true → find base s = inr els →
       resolveField (SelectField n s (js "text") vb m) base result
       = Ok (setProperty n (RArray ((λ el, RString (formatText (text el))) <$> els)) result))
  ∧ (∀ n s name m els result,
       s ≠ [] → name ≠ [] → truthy m = true → find base s = inr els →
       resolveField (SelectField n s (js "attr") (VBString name) m) base result
       = Ok (setProperty n (RArray ((λ el, RString (default [] (attr el name))) <$> els))
               result))
  ∧ (∀ n s fields m els records result,
       s ≠ [] → truthy m = true → find base s = inr els →
       Forall2 (λ el r, resolveSelectFields fields el = Ok r) els records →
       resolveField (SelectField n s (js "object") (VBFields fields) m) base result
       = Ok (setProperty n (RArray (RRecord <$> records)) result))
  ∧ (∀ n s vb m A B C,
       s ≠ [] → truthy m = true → n ≠ js "__proto__" → find base s = inr [A; B; C] →
       resolveSelectFields [SelectField n s (js "text") vb m] base
       = Ok {[n := RArray [RString (formatText (text A));
                           RString (formatText (text B));
                           RString (formatText (text C))]]}).
Proof.
  split_and!.
  - intros. apply resolveLoop_app.
  - intros pre f post result v. apply resolveLoop_last_writer.
  - intros f1 f2 v1 v2 Hn H1 H2. unfold resolveSelectFields. simpl.
    rewrite H1. simpl. rewrite (resolveField_result f2), H2. simpl.
    rewrite Hn. f_equal. apply map_eq. intros k.
    rewrite lookup_union. destruct (decide (k = varName f2)) as [->|Hk].
    + by rewrite !lookup_singleton_eq.
    + by rewrite !lookup_singleton_ne.
  - intros. by apply resolveField_multi_text.
  - intros. by apply resolveField_multi_attr.
  - intros. by eapply resolveField_multi_object.
  - intros n s vb m A B C Hs Hm Hn Hfind. unfold resolveSelectFields. cbn [resolveLoop].
    rewrite (resolveField_multi_text _ _ _ _ _ _ _ Hs Hm Hfind).
    by rewrite setProperty_own.
Qed.

(** C3. A text rule resolves a matched node to its text content
    normalised as the specification says: trimmed (a run of whitespace
    taken off each end, none left there), every maximal run of whitespace
    that holds a line feed replaced by one space, every other run kept.  No
    line feed is left in the value, a text whose trimmed form is on one
    line is only trimmed, and ["  Hello\n   World  "] gives
    ["Hello World"]. *)
Theorem text_rule_normalizes n s vb m base :
  s ≠ [] →
  (truthy m = false →
   ∀ els el result, find base s = inr els → head els = Some el →
     resolveField (SelectField n s (js "text") vb m) base result
     = Ok (setProperty n (RString (normalize_spec (text el))) result))
  ∧ (truthy m = true →
     ∀ els result, find base s = inr els →
       resolveField (SelectField n s (js "text") vb m) base result
       = Ok (setProperty n (RArray ((λ el, RString (normalize_spec (text el))) <$> els))
               result))
  ∧ (∀ t, formatText t = normalize_spec t)
  ∧ (∀ t, ∃ lead trail : jsstring,
       t = lead ++ trim t ++ trail ∧ all_ws lead ∧ all_ws trail
       ∧ run_end (trim t) ∧ run_end (reverse (trim t)))
  ∧ (∀ t, existsb is_lf (formatText t) = false)
  ∧ (∀ t, existsb is_lf (trim t) = false → formatText t = trim t)
  ∧ formatText (js "  Hello" ++ [LF] ++ js "   World  ") = js "Hello World".
Proof.
  intros Hs. split_and!.
  - intros Hm els el result Hfind Hel. rewrite resolveField_unfold, Hm, Hfind, Hel.
    repeat case_bool_decide; try done. by rewrite formatText_normalize.
  - intros Hm els result Hfind. rewrite (resolveField_multi_text _ _ _ _ _ els) by done.
    do 3 f_equal. apply list_fmap_ext. intros _ el _.
    by rewrite formatText_normalize.
  - apply formatText_normalize.
  - apply trim_split.
  - intros t. rewrite formatText_normalize. apply collapse_runs_no_lf.
  - intros t Ht. rewrite formatText_normalize. unfold normalize_spec.
    by rewrite collapse_runs_single_line.
  - vm_compute. reflexivity.
Qed.

Lemma forEach_push_throw_inv {A B} (g : A → Outcome B) xs e :
  forEach_push g xs = Throw e → ∃ x, x ∈ xs ∧ g x = Throw e.
Proof.
  induction xs as [|x xs IH]; simpl; [done|].
  destruct (g x) eqn:Hx; [|intros [= <-]; exists x; split; [left|done]|done].
  destruct (forEach_push g xs); [done| |done].
  intros [= <-]. destruct IH as (y & Hy & Hg); [done|].
  exists y. split; [by right|done].
Qed.

Lemma rule_in_weaken g fields fields' :
  (∀ f, f ∈ fields → f ∈ fields') → rule_in g fields → rule_in g fields'.
Proof.
  intros Hsub H. revert fields' Hsub.
  destruct H as [fs Hg|f fs nested Hf Hvb Hg]; intros fields' Hsub.
  - apply rule_in_here. auto.
  - eapply rule_in_nested; eauto.
Qed.

(** Where an invalid rule error comes from: a rule of the list, at any
    depth, whose [valueType] is unknown. *)
Lemma invalid_rule_error_origin fields :
  ∀ base result message options,
    resolveLoop fields base result = Throw (NodeOperationError message options) →
    ∃ g, rule_in g fields ∧ ¬ recognized (valueType g)
         ∧ message = invalidValueType_message (varName g) (valueType g)
         ∧ options = NoOptions.
Proof.
  assert (∀ f, ∀ base result message options,
    resolveField f base result = Throw (NodeOperationError message options) →
    ∃ g, rule_in g [f] ∧ ¬ recognized (valueType g)
         ∧ message = invalidValueType_message (varName g) (valueType g)
         ∧ options = NoOptions) as Hfield.
  { induction f as [n s t vb m IHvb] using ISelectField_nested_ind.
    assert (∀ el message options,
      resolveNested vb el = Throw (NodeOperationError message options) →
      ∃ g, rule_in g [SelectField n s t vb m] ∧ ¬ recognized (valueType g)
           ∧ message = invalidValueType_message (varName g) (valueType g)
           ∧ options = NoOptions) as Hnested.
    { intros el message options. destruct vb as [| |nested]; simpl; [done..|].
      simpl in IHvb. unfold resolveSelectFields. generalize (∅ : IResolveFieldRecord).
      intros acc H.
      cut (∃ g, rule_in g nested ∧ ¬ recognized (valueType g)
                ∧ message = invalidValueType_message (varName g) (valueType g)
                ∧ options = NoOptions).
      { intros (g & Hg & Hrest). exists g. split; [|done].
        eapply rule_in_nested; [left|reflexivity|done]. }
      revert acc H. induction IHvb as [|f nested Hf _ IH]; intros acc H; [done|].
      simpl in H. destruct (resolveField f el acc) as [r1|e|] eqn:E; simpl in H.
      - destruct (IH _ H) as (g & Hg & Hrest). exists g. split; [|done].
        eapply rule_in_weaken; [|exact Hg]. intros; by right.
      - simplify_eq. destruct (Hf _ _ _ _ E) as (g & Hg & Hrest).
        exists g. split; [|done].
        eapply rule_in_weaken; [|exact Hg].
        intros ? ->%list_elem_of_singleton. left.
      - done. }
    intros base result message options. rewrite resolveField_unfold.
    assert (¬ recognized t → invalidValueType n t = NodeOperationError message options →
      ∃ g, rule_in g [SelectField n s t vb m] ∧ ¬ recognized (valueType g)
           ∧ message = invalidValueType_message (varName g) (valueType g)
           ∧ options = NoOptions) as Hown.
    { intros Ht [= <- <-]. eexists. split; [apply rule_in_here; left|]. done. }
    unfold recognized in Hown.
    case_bool_decide; [done|].
    destruct (find base s) as [?|els]; [done|]. destruct (truthy m).
    - case_bool_decide; [done|]. case_bool_decide; [|case_bool_decide].
      + destruct (forEach_push _ _) eqn:E; simpl; [done| |done].
        apply forEach_push_throw_inv in E as (x & _ & Hx).
        by apply attrOrEmpty_no_throw in Hx.
      + destruct (forEach_push _ _) eqn:E; simpl; [done| |done].
        apply forEach_push_throw_inv in E as (x & _ & Hx).
        intros [= ->]. eauto.
      + intros Heq. apply Hown; [by intros [?|[?|?]]|congruence].
    - destruct (head els) as [el|]; [|done].
      case_bool_decide; [done|]. case_bool_decide; [|case_bool_decide].
      + destruct (attrOrEmpty el vb) eqn:E; simpl; [done| |done].
        by apply attrOrEmpty_no_throw in E.
      + destruct (resolveNested vb el) eqn:E; simpl; [done| |done].
        intros [= ->]. eauto.
      + intros Heq. apply Hown; [by intros [?|[?|?]]|congruence]. }
  induction fields as [|f fields IH]; intros base result message options; simpl; [done|].
  destruct (resolveField f base result) as [r1|e|] eqn:E; simpl; [|intros [= ->]|done].
  - intros H. destruct (IH _ _ _ _ H) as (g & Hg & Hrest). exists g. split; [|done].
    eapply rule_in_weaken; [|exact Hg]. intros; by right.
  - destruct (Hfield _ _ _ _ _ E) as (g & Hg & Hrest). exists g. split; [|done].
    eapply rule_in_weaken; [|exact Hg].
    intros ? ->%list_elem_of_singleton. left.
Qed.

(** C9 (amended). The evaluator does not compare [valueBy] with
    [valueType].  The invalid rule error comes only from a rule whose
    [valueType] is unknown; a text rule does the same whatever [valueBy]
    holds; an object rule whose [valueBy] is a string resolves every
    matched node to an empty record, under [multi] or not; an object rule
    whose [valueBy] is absent throws a [TypeError] once a node is
    matched; an attribute rule whose [valueBy] is absent resolves a matched
    node to its attribute map. *)
Theorem valueBy_shape_not_checked base :
  (∀ fields message options,
     resolveSelectFields fields base = Throw (NodeOperationError message options) →
     ∃ g, rule_in g fields ∧ ¬ recognized (valueType g)
          ∧ message = invalidValueType_message (varName g) (valueType g)
          ∧ options = NoOptions)
  ∧ (∀ n s vb vb' m result,
       resolveField (SelectField n s (js "text") vb m) base result
       = resolveField (SelectField n s (js "text") vb' m) base result)
  ∧ (∀ n s name m els el result,
       s ≠ [] → truthy m = false → find base s = inr els → head els = Some el →
       resolveField (SelectField n s (js "object") (VBString name) m) base result
       = Ok (setProperty n (RRecord ∅) result))
  ∧ (∀ n s name m els result,
       s ≠ [] → truthy m = true → find base s = inr els →
       resolveField (SelectField n s (js "object") (VBString name) m) base result
       = Ok (setProperty n (RArray ((λ _, RRecord ∅) <$> els)) result))
  ∧ (∀ n s m els el result,
       s ≠ [] → truthy m = false → find base s = inr els → head els = Some el →
       resolveField (SelectField n s (js "object") VBUndefined m) base result
       = Throw TypeError_not_iterable)
  ∧ (∀ n s m els result,
       s ≠ [] → truthy m = true → find base s = inr els → els ≠ [] →
       resolveField (SelectField n s (js "object") VBUndefined m) base result
       = Throw TypeError_not_iterable)
  ∧ (∀ n s m els el result,
       s ≠ [] → truthy m = false → find base s = inr els → head els = Some el →
       resolveField (SelectField n s (js "attr") VBUndefined m) base result
       = Ok (setProperty n (RRecord (RString <$> attribs el)) result))
  ∧ (∀ n s m els result,
       s ≠ [] → truthy m = true → find base s = inr els →
       resolveField (SelectField n s (js "attr") VBUndefined m) base result
       = Ok (setProperty n (RArray ((λ el, RRecord (RString <$> attribs el)) <$> els))
               result)).
Proof.
  split_and!.
  - intros fields message options. apply invalid_rule_error_origin.
  - intros n s vb vb' m result. rewrite !resolveField_unfold.
    case_bool_decide; [done|]. destruct (find base s); [done|].
    repeat case_bool_decide; done.
  - intros n s name m els el result Hs Hm Hfind Hel.
    rewrite resolveField_unfold, Hm, Hfind, Hel. repeat case_bool_decide; done.
  - intros n s name m els result Hs Hm Hfind.
    rewrite resolveField_unfold, Hm, Hfind. repeat case_bool_decide; try done.
    change (resolveNested (VBString name))
      with (λ _ : Node, Ok (A := IResolveFieldRecord) ∅).
    rewrite (forEach_push_total (λ _ : Node, (∅ : IResolveFieldRecord))). simpl.
    by rewrite <- list_fmap_compose.
  - intros n s m els el result Hs Hm Hfind Hel.
    rewrite resolveField_unfold, Hm, Hfind, Hel. repeat case_bool_decide; done.
  - intros n s m els result Hs Hm Hfind Hels.
    rewrite resolveField_unfold, Hm, Hfind. repeat case_bool_decide; try done.
    by destruct els.
  - intros n s m els el result Hs Hm Hfind Hel.
    rewrite resolveField_unfold, Hm, Hfind, Hel. repeat case_bool_decide; done.
  - intros n s m els result Hs Hm Hfind.
    rewrite resolveField_unfold, Hm, Hfind. repeat case_bool_decide; try done.
    change (λ el, attrOrEmpty el VBUndefined)
      with (λ el : Node, Ok (A := IResolveFieldResult) (RRecord (RString <$> attribs el))).
    by rewrite forEach_push_total.
Qed.

(** *** The record of selected nodes *)

Lemma tbind_snd {A B} (k : A → @Traced Node B) (k' : A → Outcome B) (t : @Traced Node A) :
  (∀ a, (k a).2 = k' a) → (tbind k t).2 = obind k' t.2.
Proof. intros Hk. unfold tbind. destruct t as [l [a| |]]; simpl; auto. Qed.

Lemma tbind_ext {A B} (k k' : A → @Traced Node B) (t : @Traced Node A) :
  (∀ a, k a = k' a) → tbind k t = tbind k' t.
Proof. intros Hk. unfold tbind. destruct t as [l [a| |]]; simpl; [|done..]. by rewrite Hk. Qed.

Lemma forEach_push_traced_ext {B} (k k' : Node → @Traced Node B) els :
  (∀ el, k el = k' el) → forEach_push_traced k els = forEach_push_traced k' els.
Proof.
  intros Hk. induction els as [|el els IH]; [done|]. simpl. by rewrite Hk, IH.
Qed.

Lemma forEach_push_traced_snd {B} (k : Node → @Traced Node B) (k' : Node → Outcome B) els :
  (∀ el, (k el).2 = k' el) → (forEach_push_traced k els).2 = forEach_push k' els.
Proof.
  intros Hk. induction els as [|el els IH]; [done|]. simpl.
  erewrite tbind_snd; [rewrite Hk|intros b; erewrite tbind_snd; [|done]; rewrite IH; reflexivity].
  destruct (k' el); simpl; [|done..].
  by destruct (forEach_push k' els).
Qed.

Lemma resolveField_traced_unfold n s t vb m base result :
  resolveField_traced (SelectField n s t vb m) base result =
  if bool_decide (s = []) then ([], Ok result)
  else
    match find base s with
    | inl message => ([], Throw (SelectorError message))
    | inr els =>
        if truthy m then
          tbind (λ _ : unit,
            if bool_decide (t = js "text") then
              ([], Ok (setProperty n (RArray ((λ el, RString (formatText (text el))) <$> els))
                         result))
            else if bool_decide (t = js "attr") then
              ([], obind (λ attrArr, Ok (setProperty n (RArray attrArr) result))
                         (forEach_push (λ el, attrOrEmpty el vb) els))
            else if bool_decide (t = js "object") then
              tbind (λ subRecords,
                       ([], Ok (setProperty n (RArray (RRecord <$> subRecords)) result)))
                    (forEach_push_traced (resolveNested_traced vb) els)
            else ([], Throw (invalidValueType n t)))
            (els, Ok ())
        else
          match head els with
          | None => ([], Ok result)
          | Some el =>
              tbind (λ _ : unit,
                if bool_decide (t = js "text") then
                  ([], Ok (setProperty n (RString (formatText (text el))) result))
                else if bool_decide (t = js "attr") then
                  ([], obind (λ v, Ok (setProperty n v result)) (attrOrEmpty el vb))
                else if bool_decide (t = js "object") then
                  tbind (λ r, ([], Ok (setProperty n (RRecord r) result)))
                        (resolveNested_traced vb el)
                else ([], Throw (invalidValueType n t)))
                ([el], Ok ())
          end
    end.
Proof.
  assert (∀ fields el acc,
    (fix loop (fs : list ISelectField) (acc : IResolveFieldRecord) :=
       match fs with
       | [] => ([], Ok acc)
       | f :: fs' => tbind (loop fs') (resolveField_traced f el acc)
       end) fields acc = resolveLoop_traced fields el acc) as Hloop.
  { induction fields as [|f fields IH]; intros el acc; [done|].
    simpl. apply tbind_ext. intros a. apply IH. }
  assert (∀ el,
    match vb with
    | VBFields fields =>
        (fix loop (fs : list ISelectField) (acc : IResolveFieldRecord) :=
           match fs with
           | [] => ([], Ok acc)
           | f :: fs' => tbind (loop fs') (resolveField_traced f el acc)
           end) fields ∅
    | VBString _ => ([], Ok ∅)
    | VBUndefined => ([], Throw TypeError_not_iterable)
    end = resolveNested_traced vb el) as Hnested.
  { intros el. destruct vb; simpl; [done..|]. apply Hloop. }
  cbn [resolveField_traced].
  case_bool_decide; [done|]. destruct (find base s) as [message|els]; [done|].
  repeat case_bool_decide; try done; destruct (truthy m); try done.
  - apply tbind_ext. intros _. f_equal. by apply forEach_push_traced_ext.
  - destruct (head els); [|done]. by rewrite Hnested.
Qed.

Lemma resolveLoop_traced_snd_of fields :
  Forall (λ f, ∀ base result, (resolveField_traced f base result).2 = resolveField f base result)
         fields →
  ∀ base result, (resolveLoop_traced fields base result).2 = resolveLoop fields base result.
Proof.
  induction 1 as [|f fields Hf _ IH]; intros base result; [done|].
  simpl. erewrite tbind_snd; [|apply IH]. by rewrite Hf.
Qed.

(** Keeping the record of selected nodes does not change the outcome. *)
Lemma resolveField_traced_snd f base result :
  (resolveField_traced f base result).2 = resolveField f base result.
Proof.
  revert base result.
  induction f as [n s t vb m IHvb] using ISelectField_nested_ind.
  assert (∀ el, (resolveNested_traced vb el).2 = resolveNested vb el) as Hnested.
  { intros el. destruct vb as [| |nested]; [done..|].
    apply resolveLoop_traced_snd_of, IHvb. }
  intros base result. rewrite resolveField_traced_unfold, resolveField_unfold.
  case_bool_decide; [done|]. destruct (find base s) as [message|els]; [done|].
  destruct (truthy m).
  - unfold tbind at 1. cbn [fst snd].
    repeat case_bool_decide; try done.
    erewrite tbind_snd; [|done]. by erewrite forEach_push_traced_snd.
  - destruct (head els) as [el|]; [|done].
    unfold tbind at 1. cbn [fst snd].
    repeat case_bool_decide; try done.
    erewrite tbind_snd; [|done]. by rewrite Hnested.
Qed.

Lemma resolveLoop_traced_snd fields base result :
  (resolveLoop_traced fields base result).2 = resolveLoop fields base result.
Proof.
  apply resolveLoop_traced_snd_of, Forall_forall. intros f _.
  apply resolveField_traced_snd.
Qed.

Lemma tbind_fst {A B} (k : A → @Traced Node B) (t : @Traced Node A) x :
  x ∈ (tbind k t).1 → x ∈ t.1 ∨ ∃ a, t.2 = Ok a ∧ x ∈ (k a).1.
Proof.
  unfold tbind. destruct t as [l [a| |]]; simpl; auto.
  intros [?|?]%elem_of_app; eauto.
Qed.

Lemma forEach_push_traced_fst {B} (k : Node → @Traced Node B) els x :
  x ∈ (forEach_push_traced k els).1 → ∃ el, el ∈ els ∧ x ∈ (k el).1.
Proof.
  induction els as [|el els IH]; simpl; [by intros ?%elem_of_nil|].
  intros [Hx|(b & _ & Hx)]%tbind_fst.
  - exists el. split; [left|done].
  - apply tbind_fst in Hx as [Hx|(bs & _ & Hx)]; [|by apply elem_of_nil in Hx].
    destruct (IH Hx) as (el' & Hel' & Hx'). exists el'. split; [by right|done].
Qed.

End ExtractorFacts.

(** ** Scoping of nested rules *)

Section Scoping.
Context {Node : Type} `{!Cheerio Node} `{!CheerioScoped Node}.

Lemma resolveLoop_traced_scoped_of fields :
  Forall (λ f, ∀ base result x,
            x ∈ (resolveField_traced f base result).1 → descendant x base) fields →
  ∀ base result x, x ∈ (resolveLoop_traced fields base result).1 → descendant x base.
Proof.
  induction 1 as [|f fields Hf _ IH]; intros base result x; simpl.
  - by intros ?%elem_of_nil.
  - intros [Hx|(a & _ & Hx)]%tbind_fst; eauto.
Qed.

(** Every node an evaluation selects lies below its context node. *)
Lemma resolveField_traced_scoped f base result x :
  x ∈ (resolveField_traced f base result).1 → descendant x base.
Proof.
  revert base result x.
  induction f as [n s t vb m IHvb] using ISelectField_nested_ind.
  assert (∀ el x, x ∈ (resolveNested_traced vb el).1 → descendant x el) as Hnested.
  { intros el x. destruct vb as [| |nested]; simpl; [by intros ?%elem_of_nil..|].
    apply resolveLoop_traced_scoped_of, IHvb. }
  intros base result x. rewrite resolveField_traced_unfold.
  case_bool_decide; [by intros ?%elem_of_nil|].
  destruct (find base s) as [message|els] eqn:Hfind; [by intros ?%elem_of_nil|].
  destruct (truthy m).
  - intros [Hx|(_ & _ & Hx)]%tbind_fst; [by eapply find_descendant|].
    revert Hx. repeat case_bool_decide; try by intros ?%elem_of_nil.
    intros [Hx|(? & _ & ?%elem_of_nil)]%tbind_fst; [|done].
    apply forEach_push_traced_fst in Hx as (el & Hel & Hx).
    eapply descendant_trans; [by apply Hnested|by eapply find_descendant].
  - destruct (head els) as [el|] eqn:Hel; [|by intros ?%elem_of_nil].
    assert (descendant el base) as Hdesc.
    { eapply find_descendant; [exact Hfind|]. apply head_Some_elem_of, Hel. }
    intros [Hx|(_ & _ & Hx)]%tbind_fst.
    { simpl in Hx. by apply list_elem_of_singleton in Hx as ->. }
    revert Hx. repeat case_bool_decide; try by intros ?%elem_of_nil.
    intros [Hx|(? & _ & ?%elem_of_nil)]%tbind_fst; [|done].
    eapply descendant_trans; [by apply Hnested|done].
Qed.

Lemma selected_scoped fields base x : x ∈ selected fields base → descendant x base.
Proof.
  unfold selected. apply (resolveLoop_traced_scoped_of fields), Forall_forall.
  intros f _ ???. apply resolveField_traced_scoped.
Qed.

(** C6. An object rule evaluates its nested rule list with the matched
    node as context node, and every node that evaluation selects, at any
    depth, lies below the matched node: a node that is not a descendant of
    the matched node, such as a sibling, is never selected, whatever the
    nested selectors match elsewhere. *)
Theorem nested_rules_scoped_to_match n s fields m base :
  s ≠ [] →
  (truthy m = false →
   ∀ els el result, find base s = inr els → head els = Some el →
     resolveField (SelectField n s (js "object") (VBFields fields) m) base result
     = obind (λ r, Ok (setProperty n (RRecord r) result)) (resolveSelectFields fields el)
     ∧ (resolveField_traced (SelectField n s (js "object") (VBFields fields) m)
                            base result).1
       = el :: selected fields el)
  ∧ (truthy m = true →
     ∀ els result, find base s = inr els →
       resolveField (SelectField n s (js "object") (VBFields fields) m) base result
       = obind (λ subRecords, Ok (setProperty n (RArray (RRecord <$> subRecords)) result))
               (forEach_push (resolveSelectFields fields) els))
  ∧ (∀ el, (resolveLoop_traced fields el ∅).2 = resolveSelectFields fields el)
  ∧ (∀ el x, x ∈ selected fields el → descendant x el)
  ∧ (∀ el y, ¬ descendant y el → y ∉ selected fields el).
Proof.
  intros Hs. split_and!.
  - intros Hm els el result Hfind Hel. split.
    + rewrite resolveField_unfold, Hm, Hfind, Hel. by repeat case_bool_decide.
    + rewrite resolveField_traced_unfold, Hm, Hfind, Hel.
      repeat case_bool_decide; try done.
      unfold tbind at 1. cbn [fst snd]. unfold selected.
      change (resolveNested_traced (VBFields fields) el)
        with (resolveLoop_traced fields el ∅).
      unfold tbind. destruct (resolveLoop_traced fields el ∅) as [l [a| |]]; simpl;
        by rewrite ?app_nil_r.
  - intros Hm els result Hfind. rewrite resolveField_unfold, Hm, Hfind.
    by repeat case_bool_decide.
  - intros el. apply resolveLoop_traced_snd.
  - intros el x. apply selected_scoped.
  - intros el y Hy Hsel. apply Hy. by eapply selected_scoped.
Qed.

End Scoping.

(** ** The batch driver *)

Section DriverFacts.
Context {Node : Type} `{!Cheerio Node}.
Variable JSON_parse : jsstring → jsstring + ParsedRules.
Variable load : jsstring → Node.
Variable message_of : Error → jsstring.

Local Abbreviation pushAll := (pushAll load).
Local Abbreviation tryItem := (tryItem JSON_parse load).
Local Abbreviation errorItem := (errorItem message_of).
Local Abbreviation executeLoop := (executeLoop JSON_parse load message_of).
Local Abbreviation execute := (execute JSON_parse load message_of).
Local Abbreviation contribution := (contribution JSON_parse load message_of).
Local Abbreviation contributions := (contributions JSON_parse load message_of).

Lemma tryItem_unfold it idx returnData :
  tryItem it idx returnData
  = match parseRules JSON_parse (rulesParams it) with
    | Ok rules =>
        match readHtmlArray it idx with
        | Ok htmlArray => pushAll rules idx htmlArray returnData
        | Throw e => (returnData, Throw e)
        | Unmodelled => (returnData, Unmodelled)
        end
    | Throw e => (returnData, Throw e)
    | Unmodelled => (returnData, Unmodelled)
    end.
Proof. reflexivity. Qed.

Lemma contribution_unfold it idx :
  contribution it idx
  = match tryItem it idx [] with
    | (pushed, Ok _) => Some pushed
    | (pushed, Throw e) => Some (pushed ++ [errorItem e idx])
    | (_, Unmodelled) => None
    end.
Proof. reflexivity. Qed.

Lemma pushAll_acc rules idx htmlArray returnData :
  pushAll rules idx htmlArray returnData
  = (returnData ++ (pushAll rules idx htmlArray []).1, (pushAll rules idx htmlArray []).2).
Proof.
  revert returnData. induction htmlArray as [|html htmlArray IH]; intros returnData; simpl.
  - by rewrite app_nil_r.
  - destruct (resolveSelectFields rules (load html)); simpl; rewrite ?app_nil_r; [|done..].
    rewrite IH, (IH [_]). simpl. by rewrite <- app_assoc.
Qed.

Lemma tryItem_acc it idx returnData :
  tryItem it idx returnData
  = (returnData ++ (tryItem it idx []).1, (tryItem it idx []).2).
Proof.
  rewrite !tryItem_unfold.
  destruct (parseRules _ _); simpl; rewrite ?app_nil_r; [|done..].
  destruct (readHtmlArray _ _); simpl; rewrite ?app_nil_r; [|done..].
  apply pushAll_acc.
Qed.

(** What the documents of one item leave on [returnData] when one of them
    fails: the records of the documents before the first failing one. *)
Lemma pushAll_throw rules idx htmlArray pushed e :
  pushAll rules idx htmlArray [] = (pushed, Throw e) →
  ∃ before failing after,
    htmlArray = before ++ failing :: after
    ∧ Forall2 (λ html out,
                 resolveSelectFields rules (load html) = Ok (json out)
                 ∧ pairedItem out = idx) before pushed
    ∧ resolveSelectFields rules (load failing) = Throw e.
Proof.
  revert pushed. induction htmlArray as [|html htmlArray IH]; intros pushed; simpl; [done|].
  destruct (resolveSelectFields rules (load html)) as [r|e'|] eqn:E; [| |done].
  - rewrite pushAll_acc. intros [= <- H].
    destruct (pushAll rules idx htmlArray []) as [p o] eqn:Ep. simpl in *. subst o.
    destruct (IH _ eq_refl) as (before & failing & after & -> & Hbefore & Hfail).
    exists (html :: before), failing, after. split_and!; [done| |done].
    constructor; [done|]. done.
  - intros [= <- <-]. exists [], html, htmlArray. split_and!; [done|constructor|done].
Qed.

Lemma pushAll_pairedItem rules idx htmlArray :
  Forall (λ out, pairedItem out = idx) (pushAll rules idx htmlArray []).1.
Proof.
  induction htmlArray as [|html htmlArray IH]; simpl; [constructor|].
  destruct (resolveSelectFields rules (load html)); simpl; [|constructor..].
  rewrite pushAll_acc. simpl. by constructor.
Qed.

Lemma tryItem_pairedItem it idx :
  Forall (λ out, pairedItem out = idx) (tryItem it idx []).1.
Proof.
  rewrite tryItem_unfold.
  destruct (parseRules _ _); simpl; [|constructor..].
  destruct (readHtmlArray _ _); simpl; [|constructor..].
  apply pushAll_pairedItem.
Qed.

Lemma executeLoop_continue items idx returnData :
  executeLoop true items idx returnData
  = match contributions items idx with
    | Some cs => Ok (returnData ++ cs)
    | None => Unmodelled
    end.
Proof.
  revert idx returnData. induction items as [|it items IH]; intros idx returnData; simpl.
  - by rewrite app_nil_r.
  - rewrite contribution_unfold, tryItem_acc.
    destruct (tryItem it idx []) as [pushed [[]|e|]]; simpl; [| |done].
    + rewrite IH. destruct (contributions items (S idx)); [|done].
      by rewrite app_assoc.
    + rewrite IH. destruct (contributions items (S idx)); [|done].
      by rewrite !app_assoc.
Qed.

Lemma executeLoop_stop pre it post idx returnData pushed e :
  (∀ i it', pre !! i = Some it' → ∃ p, tryItem it' (idx + i) [] = (p, Ok ())) →
  tryItem it (idx + length pre) [] = (pushed, Throw e) →
  executeLoop false (pre ++ it :: post) idx returnData = Throw e.
Proof.
  revert idx returnData. induction pre as [|it0 pre IH]; intros idx returnData Hpre Hit; simpl.
  - rewrite tryItem_acc. rewrite Nat.add_0_r in Hit. by rewrite Hit.
  - destruct (Hpre 0 it0 eq_refl) as [p Hp]. rewrite Nat.add_0_r in Hp.
    rewrite tryItem_acc, Hp. simpl. apply IH.
    + intros i it' Hi. replace (S idx + i) with (idx + S i) by lia. by apply Hpre.
    + simpl in Hit. by replace (S idx + length pre) with (idx + S (length pre)) by lia.
Qed.

Lemma contribution_pairedItem it idx c :
  contribution it idx = Some c → Forall (λ out, pairedItem out = idx) c.
Proof.
  rewrite contribution_unfold. pose proof (tryItem_pairedItem it idx) as Hp.
  destruct (tryItem it idx []) as [pushed [[]|e|]]; simpl in *; intros [= <-]; [done|].
  apply Forall_app. split; [done|]. by repeat constructor.
Qed.

Lemma contributions_sorted items idx cs :
  contributions items idx = Some cs →
  StronglySorted le (pairedItem <$> cs) ∧ Forall (λ out, idx ≤ pairedItem out) cs.
Proof.
  revert idx cs. induction items as [|it items IH]; intros idx cs; simpl.
  { intros [= <-]. split; constructor. }
  destruct (contribution it idx) as [c|] eqn:Hc; [|done].
  destruct (contributions items (S idx)) as [cs'|] eqn:Hcs; [|done].
  intros [= <-]. apply contribution_pairedItem in Hc.
  destruct (IH _ _ Hcs) as [Hsorted Hlow]. split.
  - rewrite fmap_app. apply StronglySorted_app_2; [| |done].
    + intros x1 x2 (o1 & -> & Ho1)%list_elem_of_fmap (o2 & -> & Ho2)%list_elem_of_fmap.
      rewrite Forall_forall in Hc, Hlow.
      rewrite (Hc _ Ho1). specialize (Hlow _ Ho2). lia.
    + clear -Hc. induction Hc as [|o c Ho Hc IH]; simpl; constructor; [done|].
      apply Forall_fmap. eapply Forall_impl; [exact Hc|]. simpl. intros; lia.
  - apply Forall_app. split.
    + eapply Forall_impl; [exact Hc|]. simpl. intros; lia.
    + eapply Forall_impl; [exact Hlow|]. simpl. intros; lia.
Qed.

(** C8 (amended). In continue-on-failure mode every item is processed,
    whatever happened to the items before it, and the output is what the
    items contribute, in input order, every record tagged with the index of
    its item.  An item whose body throws contributes the records of the
    documents that came before its first failing document, followed by one
    [{ error: message }] record; for an item with at most one document
    that is the error record alone.  With the mode off, the first item
    whose body throws makes [execute] throw that same error. *)
Theorem batch_failure_handling items :
  execute true items
  = match contributions items 0 with
    | Some cs => Ok [cs]
    | None => Unmodelled
    end
  ∧ (∀ it idx pushed e,
       tryItem it idx [] = (pushed, Throw e) →
       contribution it idx = Some (pushed ++ [errorItem e idx])
       ∧ json (errorItem e idx) = {[ js "error" := RString (message_of e) ]})
  ∧ (∀ it idx pushed e,
       tryItem it idx [] = (pushed, Throw e) →
       (∀ htmlArray, readHtmlArray it idx = Ok htmlArray → length htmlArray ≤ 1) →
       contribution it idx = Some [errorItem e idx])
  ∧ (∀ it idx pushed e,
       tryItem it idx [] = (pushed, Throw e) →
       (pushed = []
        ∧ (parseRules JSON_parse (rulesParams it) = Throw e
           ∨ readHtmlArray it idx = Throw e))
       ∨ ∃ rules before failing after,
           parseRules JSON_parse (rulesParams it) = Ok rules
           ∧ readHtmlArray it idx = Ok (before ++ failing :: after)
           ∧ Forall2 (λ html out,
                        resolveSelectFields rules (load html) = Ok (json out)
                        ∧ pairedItem out = idx) before pushed
           ∧ resolveSelectFields rules (load failing) = Throw e)
  ∧ (∀ it idx c,
       contribution it idx = Some c → Forall (λ out, pairedItem out = idx) c)
  ∧ (∀ cs, contributions items 0 = Some cs → StronglySorted le (pairedItem <$> cs))
  ∧ (∀ pre it post pushed e,
       items = pre ++ it :: post →
       (∀ i it', pre !! i = Some it' → ∃ p, tryItem it' i [] = (p, Ok ())) →
       tryItem it (length pre) [] = (pushed, Throw e) →
       execute false items = Throw e).
Proof.
  split_and!.
  - change (execute true items)
      with (obind (λ returnData, Ok [returnData]) (executeLoop true items 0 [])).
    rewrite executeLoop_continue. by destruct (contributions items 0).
  - intros it idx pushed e H. rewrite contribution_unfold, H. done.
  - intros it idx pushed e H Hone. rewrite contribution_unfold, H.
    rewrite tryItem_unfold in H.
    destruct (parseRules _ _) as [rules| |]; [|by simplify_eq..].
    destruct (readHtmlArray it idx) as [htmlArray| |]; [|by simplify_eq..].
    specialize (Hone _ eq_refl).
    destruct htmlArray as [|html [|??]]; simpl in *; [done| |lia].
    destruct (resolveSelectFields rules (load html)); by simplify_eq.
  - intros it idx pushed e. rewrite tryItem_unfold.
    destruct (parseRules _ _) as [rules|e'|] eqn:Hrules; [|intros [= <- <-]; auto|done].
    destruct (readHtmlArray it idx) as [htmlArray|e'|] eqn:Hread;
      [|intros [= <- <-]; auto|done].
    intros (before & failing & after & -> & Hbefore & Hfail)%pushAll_throw.
    right. by exists rules, before, failing, after.
  - apply contribution_pairedItem.
  - intros cs Hcs. by apply contributions_sorted in Hcs as [? _].
  - intros pre it post pushed e -> Hpre Hit.
    change (execute false (pre ++ it :: post))
      with (obind (λ returnData, Ok [returnData])
                  (executeLoop false (pre ++ it :: post) 0 [])).
    by erewrite executeLoop_stop.
Qed.

End DriverFacts.

(** ** The document model meets the contract of the tree query *)

Module DomFacts.
Import Dom.

Lemma element_paths_cons t p : p ∈ element_paths t → p ≠ [].
Proof.
  destruct t as [data|name attribs children]; simpl; [by intros ?%elem_of_nil|].
  generalize 0. induction children as [|c children IH]; intros i; [by intros ?%elem_of_nil|].
  intros [Hp|Hp]%elem_of_app; [|by eapply IH].
  destruct c; [by apply elem_of_nil in Hp|].
  apply elem_of_cons in Hp as [->|(q & -> & _)%list_elem_of_fmap]; done.
Qed.

Lemma dom_descendant_trans x y z :
  dom_descendant x y → dom_descendant y z → dom_descendant x z.
Proof.
  intros [Hd1 (q1 & Hq1 & Hp1)] [Hd2 (q2 & Hq2 & Hp2)]. split; [congruence|].
  exists (q2 ++ q1). split.
  - destruct q2; [done|]. discriminate.
  - by rewrite Hp1, Hp2, app_assoc.
Qed.

Lemma dom_find_descendant base sel els x :
  dom_find base sel = inr els → x ∈ els → dom_descendant x base.
Proof.
  unfold dom_find. case_bool_decide; [done|]. case_bool_decide.
  { intros [= <-]. by intros ?%elem_of_nil. }
  destruct (subtree (doc base) (path base)) as [t|];
    [|intros [= <-]; by intros ?%elem_of_nil].
  intros [= <-].
  intros (p & -> & Hp)%list_elem_of_fmap. apply list_elem_of_filter in Hp as [_ Hp].
  split; [done|]. exists p. split; [by eapply element_paths_cons|done].
Qed.

#[export] Instance dom_scoped : CheerioScoped Node :=
  {| descendant := dom_descendant;
     descendant_trans := dom_descendant_trans;
     find_descendant := dom_find_descendant |}.

End DomFacts.

(** ** The properties on concrete documents *)

Module Examples.
Import Dom DomFacts.
Local Open Scope string_scope.

Definition el (name : string) (attribs : list (string * string)) (children : list Tree)
  : Tree :=
  Element (js name) ((λ kv, (js kv.1, js kv.2)) <$> attribs) children.

Definition txt (data : string) : Tree := Text (js data).

Definition rule (name sel kind : string) (by_ : ISelectValueBy ISelectField)
    (m : option bool) : ISelectField :=
  SelectField (js name) (js sel) (js kind) by_ m.

(** [<ul><li class="x">1</li><li class="x">2</li></ul>] *)
Definition list_doc : Tree :=
  el "root" [] [el "ul" [] [el "li" [("class", "x")] [txt "1"];
                             el "li" [("class", "x")] [txt "2"]]].

(** [<div><span data-id="42">ignored</span></div>] *)
Definition span_doc : Tree :=
  el "root" [] [el "div" [] [el "span" [("data-id", "42")] [txt "ignored"]]].

(** [<div class="card"><span>in</span></div><span>out</span>] *)
Definition card_doc : Tree :=
  el "root" [] [el "div" [("class", "card")] [el "span" [] [txt "in"]];
                el "span" [] [txt "out"]].

(** [<p>A</p><p>B</p><p>C</p>] *)
Definition abc_doc : Tree :=
  el "root" [] [el "p" [("title", "a")] [txt "A"];
                el "p" [] [txt "B"];
                el "p" [("title", "c")] [txt "C"]].

Definition at_path (t : Tree) (p : list nat) : Node := {| doc := t; path := p |}.

(** [formatText] on small inputs: spaces on one line stay, a run with a
    line feed becomes one space (also after a carriage return), a carriage
    return alone is not a line break, and a no-break space is whitespace. *)
Example formatText_inner_spaces : formatText (js "  a  b ") = js "a  b".
Proof. vm_compute. reflexivity. Qed.

Example formatText_blank_lines :
  formatText (js "a " ++ [LF; LF; 9%N] ++ js "b") = js "a b".
Proof. vm_compute. reflexivity. Qed.

Example formatText_crlf : formatText (js "a" ++ [13%N; LF] ++ js "b") = js "a b".
Proof. vm_compute. reflexivity. Qed.

Example formatText_cr :
  formatText (js "a" ++ [13%N] ++ js "b") = (js "a" ++ [13%N] ++ js "b")%list.
Proof. vm_compute. reflexivity. Qed.

Example formatText_nbsp : formatText ([160%N] ++ js "a" ++ [160%N; LF]) = js "a".
Proof. vm_compute. reflexivity. Qed.

(** The two end-to-end examples of the specification. *)
Example end_to_end_items :
  resolveSelectFields [rule "items" "li.x" "text" VBUndefined (Some true)] (root list_doc)
  = Ok {[ js "items" := RArray [RString (js "1"); RString (js "2")] ]}.
Proof. vm_compute. reflexivity. Qed.

Example end_to_end_id :
  resolveSelectFields [rule "id" "span" "attr" (VBString (js "data-id")) None] (root span_doc)
  = Ok {[ js "id" := RString (js "42") ]}.
Proof. vm_compute. reflexivity. Qed.

(** [<p>  Hello\n   World  </p>] *)
Definition hello_doc : Tree :=
  el "root" [] [el "p" [] [Text (js "  Hello" ++ [LF] ++ js "   World  ")]].

Definition missing_rule : ISelectField := rule "missing" "table" "text" VBUndefined None.
Definition items_rule : ISelectField := rule "items" "li.x" "text" VBUndefined (Some true).
Definition tags_rule : ISelectField := rule "tags" "table" "attr" (VBString (js "id")) (Some true).
Definition bogus_rule (sel : string) : ISelectField := rule "x" sel "bogus" VBUndefined None.
Definition label_rule : ISelectField := rule "label" "span" "text" VBUndefined (Some true).

Lemma single_no_match_omits_key_witness :
  truthy (multi missing_rule) = false
  ∧ find (root list_doc) (selector missing_rule) = inr []
  ∧ resolveSelectFields [missing_rule; items_rule] (root list_doc)
    = resolveSelectFields [items_rule] (root list_doc)
  ∧ resolveSelectFields [missing_rule] (root list_doc) = Ok ∅.
Proof.
  pose proof (single_no_match_omits_key missing_rule (root list_doc) eq_refl eq_refl)
    as (_ & Hone & Hskip & _).
  split_and!; [reflexivity|reflexivity|exact (Hskip [] [items_rule])|exact Hone].
Defined.

Definition proto_rule : ISelectField :=
  rule "__proto__" "table" "text" VBUndefined (Some true).
Definition no_selector_rule : ISelectField := rule "tags" "" "text" VBUndefined (Some true).

(** C2, as stated, fails: a [multi] rule of a known kind that matches
    nothing writes no key when its name is [__proto__], and none when its
    selector is empty. *)
Lemma multi_no_match_counterexample :
  (truthy (multi proto_rule) = true
   ∧ recognized (valueType proto_rule)
   ∧ find (root list_doc) (selector proto_rule) = inr []
   ∧ resolveSelectFields [proto_rule] (root list_doc) = Ok ∅)
  ∧ (truthy (multi no_selector_rule) = true
     ∧ recognized (valueType no_selector_rule)
     ∧ find (root list_doc) (selector no_selector_rule) = inr []
     ∧ resolveSelectFields [no_selector_rule] (root list_doc) = Ok ∅).
Proof.
  split; (split_and!; [reflexivity|by left|reflexivity|vm_compute; reflexivity]).
Qed.

Lemma multi_no_match_empty_sequence_witness :
  truthy (multi tags_rule) = true
  ∧ selector tags_rule ≠ []
  ∧ find (root list_doc) (selector tags_rule) = inr []
  ∧ recognized (valueType tags_rule)
  ∧ varName tags_rule ≠ js "__proto__"
  ∧ resolveSelectFields [tags_rule] (root list_doc) = Ok {[ js "tags" := RArray [] ]}.
Proof.
  assert (selector tags_rule ≠ []) as Hsel by discriminate.
  assert (recognized (valueType tags_rule)) as Hkind by (right; left; reflexivity).
  assert (varName tags_rule ≠ js "__proto__") as Hname by discriminate.
  pose proof (multi_no_match_empty_sequence tags_rule (root list_doc)
                eq_refl Hsel eq_refl Hkind Hname) as (_ & Hone & _).
  split_and!; [reflexivity|exact Hsel|reflexivity|exact Hkind|exact Hname|exact Hone].
Defined.

Lemma text_rule_normalizes_witness :
  js "p" ≠ []
  ∧ resolveField (rule "greeting" "p" "text" VBUndefined None) (root hello_doc) ∅
    = Ok {[ js "greeting" := RString (js "Hello World") ]}.
Proof.
  assert (js "p" ≠ []) as Hsel by discriminate.
  pose proof (text_rule_normalizes (js "greeting") (js "p") VBUndefined None
                (root hello_doc) Hsel) as (Hsingle & _).
  split; [exact Hsel|].
  exact (Hsingle eq_refl [at_path hello_doc [0]] (at_path hello_doc [0]) ∅ eq_refl eq_refl).
Defined.



(** C5, as stated, fails: a rule of an unknown kind that is not [multi]
    and matches nothing raises no error, and one whose selector the
    library refuses ends with the library's error. *)
Lemma invalid_valueType_counterexample :
  ¬ recognized (valueType (bogus_rule "table"))
  ∧ resolveSelectFields [bogus_rule "table"] (root list_doc) = Ok ∅
  ∧ (∀ e, resolveSelectFields [bogus_rule "table"] (root list_doc) ≠ Throw e)
  ∧ resolveSelectFields [bogus_rule "li["] (root list_doc)
    = Throw (SelectorError (js "selector not supported")).
Proof.
  split_and!.
  - intros [H|[H|H]]; discriminate H.
  - vm_compute. reflexivity.
  - intros e. vm_compute. discriminate.
  - vm_compute. reflexivity.
Qed.

Definition cards_rule (nested : list ISelectField) : ISelectField :=
  rule "cards" "li" "object" (VBFields nested) (Some true).

Lemma invalid_valueType_throws_witness :
  ¬ recognized (valueType (bogus_rule "li"))
  ∧ selector (bogus_rule "li") ≠ []
  ∧ find (root list_doc) (selector (bogus_rule "li"))
    = inr [at_path list_doc [0; 0]; at_path list_doc [0; 1]]
  ∧ [at_path list_doc [0; 0]; at_path list_doc [0; 1]] ≠ []
  ∧ resolveSelectFields [items_rule; bogus_rule "li"; missing_rule] (root list_doc)
    = Throw (invalidValueType (js "x") (js "bogus")).
Proof.
  assert (¬ recognized (valueType (bogus_rule "li"))) as Hkind
    by (intros [H|[H|H]]; discriminate H).
  assert (selector (bogus_rule "li") ≠ []) as Hsel by discriminate.
  assert ([at_path list_doc [0; 0]; at_path list_doc [0; 1]] ≠ []) as Hne by discriminate.
  pose proof (invalid_valueType_throws (bogus_rule "li") (root list_doc) _
                Hkind Hsel eq_refl (or_intror Hne)) as (_ & _ & Hseq & _).
  split_and!; [exact Hkind|exact Hsel|reflexivity|exact Hne|].
  exact (Hseq [items_rule] [missing_rule] _ eq_refl).
Defined.

(** The error of C5 through object rules: from the nested list of a rule
    that is not [multi], and from a matched node of a rule that is. *)
Example invalid_valueType_nested :
  resolveSelectFields [rule "list" "ul" "object" (VBFields [items_rule; bogus_rule "li"]) None]
                      (root list_doc)
  = Throw (invalidValueType (js "x") (js "bogus"))
  ∧ resolveSelectFields [rule "ps" "p" "object"
                           (VBFields [rule "x" "b" "bogus" VBUndefined (Some true)])
                           (Some true)]
                        (root abc_doc)
    = Throw (invalidValueType (js "x") (js "bogus")).
Proof. split; vm_compute; reflexivity. Qed.

Lemma invalid_valueType_no_match_skipped_witness :
  ¬ recognized (valueType (bogus_rule "table"))
  ∧ truthy (multi (bogus_rule "table")) = false
  ∧ find (root list_doc) (selector (bogus_rule "table")) = inr []
  ∧ resolveSelectFields [bogus_rule "table"; items_rule] (root list_doc)
    = resolveSelectFields [items_rule] (root list_doc).
Proof.
  assert (¬ recognized (valueType (bogus_rule "table"))) as Hkind
    by (intros [H|[H|H]]; discriminate H).
  pose proof (invalid_valueType_no_match_skipped (bogus_rule "table") (root list_doc)
                Hkind eq_refl eq_refl) as (_ & Hskip & _).
  split_and!; [exact Hkind|reflexivity|reflexivity|exact (Hskip [] [items_rule])].
Defined.

Definition card_rule : ISelectField :=
  rule "card" "div.card" "object" (VBFields [label_rule]) None.

Lemma nested_rules_scoped_to_match_witness :
  js "div.card" ≠ []
  ∧ find (root card_doc) (selector label_rule)
    = inr [at_path card_doc [0; 0]; at_path card_doc [1]]
  ∧ (at_path card_doc [1] ∉ selected [label_rule] (at_path card_doc [0]))
  ∧ resolveField card_rule (root card_doc) ∅
    = Ok {[ js "card" := RRecord {[ js "label" := RArray [RString (js "in")] ]} ]}.
Proof.
  assert (js "div.card" ≠ []) as Hsel by discriminate.
  pose proof (nested_rules_scoped_to_match (js "card") (js "div.card") [label_rule] None
                (root card_doc) Hsel) as (Hsingle & _ & _ & _ & Hout).
  split_and!; [exact Hsel| | |].
  - vm_compute. reflexivity.
  - apply Hout. intros [_ (q & _ & Hq)]. discriminate Hq.
  - exact (proj1 (Hsingle eq_refl [at_path card_doc [0]] (at_path card_doc [0]) ∅
                    eq_refl eq_refl)).
Defined.

Lemma evaluation_order_preserved_witness :
  find (root abc_doc) (js "p")
  = inr [at_path abc_doc [0]; at_path abc_doc [1]; at_path abc_doc [2]]
  ∧ resolveSelectFields [rule "letters" "p" "text" VBUndefined (Some true)] (root abc_doc)
    = Ok {[ js "letters" := RArray [RString (js "A"); RString (js "B"); RString (js "C")] ]}
  ∧ resolveSelectFields [rule "v" "p" "text" VBUndefined None;
                         rule "v" "p" "attr" (VBString (js "title")) None] (root abc_doc)
    = Ok {[ js "v" := RString (js "a") ]}
  ∧ resolveField (rule "titles" "p" "attr" (VBString (js "title")) (Some true))
                 (root abc_doc) ∅
    = Ok {[ js "titles" := RArray [RString (js "a"); RString []; RString (js "c")] ]}.
Proof.
  pose proof (evaluation_order_preserved (root abc_doc))
    as (_ & _ & Hlast & _ & Hattr & _ & Habc).
  assert (js "p" ≠ []) as Hsel by discriminate.
  assert (js "letters" ≠ js "__proto__") as Hname by discriminate.
  assert (js "title" ≠ []) as Htitle by discriminate.
  split_and!; [reflexivity| | |].
  - exact (Habc (js "letters") (js "p") VBUndefined (Some true) _ _ _
                Hsel eq_refl Hname eq_refl).
  - exact (Hlast (rule "v" "p" "text" VBUndefined None)
                 (rule "v" "p" "attr" (VBString (js "title")) None)
                 (RString (js "A")) (RString (js "a")) eq_refl eq_refl eq_refl).
  - exact (Hattr (js "titles") (js "p") (js "title") (Some true)
                 [at_path abc_doc [0]; at_path abc_doc [1]; at_path abc_doc [2]] ∅
                 Hsel Htitle eq_refl eq_refl).
Defined.

(** C9, as stated, fails: a text rule whose [valueBy] is a nested rule
    list, and an object rule whose [valueBy] is a string, resolve without
    any error. *)
Lemma valueBy_shape_counterexample :
  resolveSelectFields [rule "t" "span" "text" (VBFields [label_rule]) None] (root span_doc)
  = Ok {[ js "t" := RString (js "ignored") ]}
  ∧ resolveSelectFields [rule "o" "span" "object" (VBString (js "data-id")) None]
                        (root span_doc)
    = Ok {[ js "o" := RRecord ∅ ]}.
Proof. split; vm_compute; reflexivity. Qed.

Lemma valueBy_shape_not_checked_witness :
  resolveField (rule "t" "span" "text" (VBFields [label_rule]) None) (root span_doc) ∅
  = resolveField (rule "t" "span" "text" VBUndefined None) (root span_doc) ∅
  ∧ resolveField (rule "o" "span" "object" VBUndefined None) (root span_doc) ∅
    = Throw TypeError_not_iterable
  ∧ resolveField (rule "o" "p" "object" (VBString (js "title")) (Some true)) (root abc_doc) ∅
    = Ok {[ js "o" := RArray [RRecord ∅; RRecord ∅; RRecord ∅] ]}.
Proof.
  pose proof (valueBy_shape_not_checked (root span_doc))
    as (_ & Htext & _ & _ & Habsent & _).
  pose proof (valueBy_shape_not_checked (root abc_doc))
    as (_ & _ & _ & Hmulti & _).
  assert (js "span" ≠ []) as Hsel by discriminate.
  assert (js "p" ≠ []) as Hp by discriminate.
  split_and!.
  - apply Htext.
  - exact (Habsent (js "o") (js "span") None [at_path span_doc [0; 0]]
                   (at_path span_doc [0; 0]) ∅ Hsel eq_refl eq_refl eq_refl).
  - exact (Hmulti (js "o") (js "p") (js "title") (Some true)
                  [at_path abc_doc [0]; at_path abc_doc [1]; at_path abc_doc [2]] ∅
                  Hp eq_refl eq_refl).
Defined.

(** *** A run of the driver *)

(** The parser library and the host, for the runs below: three known
    markup strings, a rule payload that parses to [bogus_rule "p"] unless
    it is empty, and the message of an error as its first argument. *)
Definition example_load (html : jsstring) : Node :=
  if bool_decide (html = js "<ul><li class=x>1</li><li class=x>2</li></ul>")
  then root list_doc
  else if bool_decide (html = js "<p title=a>A</p><p>B</p><p title=c>C</p>")
  then root abc_doc
  else root (el "root" [] []).

Definition example_parse (rulesParams : jsstring) : jsstring + ParsedRules :=
  if bool_decide (rulesParams = []) then inl (js "Unexpected end of JSON input")
  else inr (ParsedSingle (bogus_rule "p")).

Definition example_message (e : Error) : jsstring :=
  match e with
  | NodeOperationError message _ => message
  | TypeError_not_iterable => js "fields is not iterable"
  | HelperError message => message
  | SelectorError message => message
  end.

Definition example_item (value : HtmlValue) : Item :=
  {| sourceType := js "json";
     dataPropertyName := js "data";
     rulesParams := js "{varName:x,selector:p,valueType:bogus}";
     json_get := (λ name, if bool_decide (name = js "data") then Some value else None);
     binary_get := (λ _, inl (HelperError (js "no binary data"))) |}.

Definition ul_html : jsstring := js "<ul><li class=x>1</li><li class=x>2</li></ul>".
Definition p_html : jsstring := js "<p title=a>A</p><p>B</p><p title=c>C</p>".

Definition example_error_item (idx : nat) : INodeExecutionData :=
  {| json := {[ js "error" := RString (invalidValueType_message (js "x") (js "bogus")) ]};
     pairedItem := idx |}.

(** C8, as stated, fails on an item that carries several documents: when
    its second document fails, the record of its first document stays in
    the output in front of the error record (and its third document is
    not processed), so the error record does not stand in place of the
    item's output. *)
Lemma batch_failure_counterexample :
  tryItem example_parse example_load
          (example_item (HtmlArray [ul_html; p_html; ul_html])) 0 []
  = ([{| json := ∅; pairedItem := 0 |}],
     Throw (invalidValueType (js "x") (js "bogus")))
  ∧ execute example_parse example_load example_message true
            [example_item (HtmlArray [ul_html; p_html; ul_html]);
             example_item (HtmlString ul_html)]
    = Ok [[ {| json := ∅; pairedItem := 0 |};
            example_error_item 0;
            {| json := ∅; pairedItem := 1 |} ]]
  ∧ contribution example_parse example_load example_message
                 (example_item (HtmlArray [ul_html; p_html; ul_html])) 0
    ≠ Some [example_error_item 0].
Proof. split_and!; [vm_compute; reflexivity..|vm_compute; discriminate]. Qed.

Lemma batch_failure_handling_witness :
  execute example_parse example_load example_message true
          [example_item (HtmlString p_html); example_item (HtmlString ul_html)]
  = Ok [[ example_error_item 0; {| json := ∅; pairedItem := 1 |} ]]
  ∧ execute example_parse example_load example_message false
            [example_item (HtmlString ul_html); example_item (HtmlString p_html);
             example_item (HtmlString ul_html)]
    = Throw (invalidValueType (js "x") (js "bogus")).
Proof.
  split.
  - pose proof (batch_failure_handling example_parse example_load example_message
                  [example_item (HtmlString p_html); example_item (HtmlString ul_html)])
      as (Hcontinue & _).
    rewrite Hcontinue. vm_compute. reflexivity.
  - pose proof (batch_failure_handling example_parse example_load example_message
                  [example_item (HtmlString ul_html); example_item (HtmlString p_html);
                   example_item (HtmlString ul_html)])
      as (_ & _ & _ & _ & _ & _ & Hstop).
    apply (Hstop [example_item (HtmlString ul_html)] (example_item (HtmlString p_html))
                 [example_item (HtmlString ul_html)] []); [reflexivity| |].
    + intros [|i] it' Hi; [|destruct i; discriminate Hi].
      injection Hi as <-. eexists. vm_compute. reflexivity.
    + vm_compute. reflexivity.
Defined.

End Examples.

(** * Further properties of the code *)

(** ** [formatText] *)

Lemma drop_ws_all w : all_ws w → drop_ws w = [].
Proof. induction 1 as [|c w Hc _ IH]; simpl; [done|]. by rewrite Hc. Qed.

Lemma drop_ws_run_end s : run_end s → drop_ws s = s.
Proof. destruct s as [|c s]; simpl; [done|]. by intros ->. Qed.

Lemma trim_fixed s : run_end s → run_end (reverse s) → trim s = s.
Proof.
  intros Hhead Hlast. unfold trim.
  by rewrite (drop_ws_run_end s), (drop_ws_run_end (reverse s)), reverse_involutive.
Qed.

Lemma collapse_run_length p : length (collapse_run p) ≤ length p.
Proof.
  unfold collapse_run. destruct (existsb is_lf p) eqn:E.
  - destruct p; [done|]. simpl. lia.
  - by rewrite length_reverse.
Qed.

Lemma collapse_runs_length p s : length (collapse_runs p s) ≤ length p + length s.
Proof.
  revert p. induction s as [|c s IH]; intros p; simpl.
  - pose proof (collapse_run_length p). lia.
  - destruct (is_ws c).
    + specialize (IH (c :: p)). simpl in IH. lia.
    + rewrite length_app. simpl.
      pose proof (collapse_run_length p). specialize (IH []). simpl in IH. lia.
Qed.

Lemma collapse_run_all_ws p : all_ws p → all_ws (collapse_run p).
Proof.
  intros Hp. unfold collapse_run. destruct (existsb is_lf p).
  - by repeat constructor.
  - unfold all_ws. by rewrite Forall_reverse.
Qed.

Lemma filter_all_ws w : all_ws w → filter (λ c, is_ws c = false) w = [].
Proof.
  induction 1 as [|c w Hc _ IH]; [done|].
  rewrite filter_cons_False; [done|]. congruence.
Qed.

Lemma collapse_runs_words p s :
  all_ws p →
  filter (λ c, is_ws c = false) (collapse_runs p s) = filter (λ c, is_ws c = false) s.
Proof.
  revert p. induction s as [|c s IH]; intros p Hp; simpl.
  - by apply filter_all_ws, collapse_run_all_ws.
  - destruct (is_ws c) eqn:Hc.
    + rewrite IH by (by constructor). rewrite filter_cons_False; [done|]. congruence.
    + rewrite filter_app, (filter_all_ws _ (collapse_run_all_ws _ Hp)). simpl.
      rewrite !filter_cons_True by done. f_equal. apply IH. constructor.
Qed.

Lemma collapse_runs_last p s c :
  last s = Some c → is_ws c = false → last (collapse_runs p s) = Some c.
Proof.
  revert p. induction s as [|x s IH]; intros p Hlast Hc; [done|].
  destruct (decide (s = [])) as [->|Hne].
  - simpl in Hlast. injection Hlast as ->. simpl. rewrite Hc.
    change (collapse_run []) with (@nil N). by rewrite last_snoc.
  - assert (last s = Some c) as Hs.
    { destruct s; [done|]. by rewrite last_cons_cons in Hlast. }
    simpl. destruct (is_ws x); [by apply IH|].
    by rewrite last_app, last_cons, (IH [] Hs Hc).
Qed.

Lemma run_end_last s :
  run_end (reverse s) ↔ match last s with Some c => is_ws c = false | None => True end.
Proof.
  rewrite <- head_reverse. by destruct (reverse s).
Qed.

Lemma formatText_ends text :
  run_end (formatText text) ∧ run_end (reverse (formatText text)).
Proof.
  destruct (trim_split text) as (_ & _ & _ & _ & _ & Hhead & Hlast).
  rewrite formatText_normalize. unfold normalize_spec. split.
  - destruct (trim text) as [|c u]; [done|]. simpl in *. by rewrite Hhead.
  - apply run_end_last. apply run_end_last in Hlast.
    destruct (last (trim text)) as [c|] eqn:E.
    + by rewrite (collapse_runs_last _ _ _ E Hlast).
    + apply last_None in E. by rewrite E.
Qed.

(** X1. Normalising twice is normalising once. *)
Theorem formatText_idempotent text : formatText (formatText text) = formatText text.
Proof.
  destruct (formatText_ends text) as [Hhead Hlast].
  unfold formatText at 1. rewrite trim_fixed by done.
  rewrite replace_newlines_collapse.
  rewrite collapse_runs_single_line; [done..|].
  rewrite formatText_normalize. apply collapse_runs_no_lf.
Qed.

(** X2. A normalised text neither starts nor ends with whitespace, and a
    text that is all whitespace (the empty text too) normalises to the
    empty string. *)
Theorem formatText_no_outer_whitespace text :
  run_end (formatText text)
  ∧ run_end (reverse (formatText text))
  ∧ (all_ws text → formatText text = []).
Proof.
  destruct (formatText_ends text) as [Hhead Hlast]. split_and!; [done..|].
  intros Hws. unfold formatText, trim. by rewrite (drop_ws_all text).
Qed.

(** X3. Normalising never makes a text longer. *)
Theorem formatText_length text : length (formatText text) ≤ length text.
Proof.
  destruct (trim_split text) as (lead & trail & Htext & _).
  rewrite formatText_normalize. unfold normalize_spec.
  pose proof (collapse_runs_length [] (trim text)) as Hlen. simpl in Hlen.
  apply (f_equal length) in Htext. rewrite !length_app in Htext. lia.
Qed.

(** X4. Normalising touches whitespace only: the characters that are not
    whitespace come out as they went in, in the same order. *)
Theorem formatText_keeps_words text :
  filter (λ c, is_ws c = false) (formatText text) = filter (λ c, is_ws c = false) text.
Proof.
  destruct (trim_split text) as (lead & trail & Htext & Hlead & Htrail & _).
  rewrite formatText_normalize. unfold normalize_spec.
  rewrite collapse_runs_words by constructor.
  rewrite Htext at 2.
  rewrite !filter_app, (filter_all_ws lead), (filter_all_ws trail) by done.
  by rewrite app_nil_r.
Qed.

(** ** [resolveSelectFields] *)

(** The values of [IDefaultFieldResult] as its declaration lists them: a
    string, an array of strings, a record of such values, or an array of
    such records. *)
Inductive shaped : IResolveFieldResult → Prop :=
| shaped_string s : shaped (RString s)
| shaped_strings (l : list jsstring) : shaped (RArray (RString <$> l))
| shaped_record (r : IResolveFieldRecord) :
    (∀ k v, r !! k = Some v → shaped v) → shaped (RRecord r)
| shaped_records (l : list IResolveFieldRecord) :
    Forall (λ r, ∀ k v, r !! k = Some v → shaped v) l →
    shaped (RArray (RRecord <$> l)).

(** An attribute rule that does not carry a rule list where the declared
    type has the attribute's name. *)
Definition attr_by_name (g : ISelectField) : Prop :=
  valueType g = js "attr" → ∀ nested, valueBy g ≠ VBFields nested.

(** Rules as the declared types pair [valueType] with [valueBy]: a text
    rule, an attribute rule with the attribute's name, or an object rule
    with a nested list of such rules. *)
Inductive well_typed : ISelectField → Prop :=
| well_typed_text n s vb m : well_typed (SelectField n s (js "text") vb m)
| well_typed_attr n s name m : well_typed (SelectField n s (js "attr") (VBString name) m)
| well_typed_object n s nested m :
    Forall well_typed nested →
    well_typed (SelectField n s (js "object") (VBFields nested) m).

(** The rules that write the key [k] on a document where their selector
    matches nothing: those with a selector and [multi], under a name that
    becomes a property of its own. *)
Definition writes_unmatched (k : jsstring) (f : ISelectField) : Prop :=
  varName f = k ∧ k ≠ js "__proto__" ∧ truthy (multi f) = true ∧ selector f ≠ [].

Section ExtractorExtras.
Context {Node : Type} `{!Cheerio Node}.

Implicit Types (f g : ISelectField) (fields : list ISelectField).
Implicit Types (base el : Node) (result acc : IResolveFieldRecord).

Lemma Ok_inj {A} (a b : A) : Ok a = Ok b → a = b.
Proof. intros H. by injection H. Qed.

Lemma resolveSelectFields_one f base : resolveSelectFields [f] base = resolveField f base ∅.
Proof.
  unfold resolveSelectFields. simpl. by destruct (resolveField f base ∅).
Qed.

Lemma forEach_push_Ok_inv {A B} (k : A → Outcome B) xs bs :
  forEach_push k xs = Ok bs → Forall2 (λ x b, k x = Ok b) xs bs.
Proof.
  revert bs. induction xs as [|x xs IH]; intros bs; simpl.
  - intros [= <-]. constructor.
  - destruct (k x) as [b| |] eqn:Hx; [|done..].
    destruct (forEach_push k xs) as [bs'| |]; [|done..].
    intros [= <-]. constructor; auto.
Qed.

(** X5. Rules without a selector take no part in an evaluation, whatever
    else they hold: a rule list evaluates as the list of its rules that
    have a selector. *)
Theorem empty_selector_rules_ignored fields base :
  resolveSelectFields fields base
  = resolveSelectFields (filter (λ f, selector f ≠ []) fields) base.
Proof.
  unfold resolveSelectFields. generalize (∅ : IResolveFieldRecord).
  induction fields as [|f fields IH]; intros acc; [done|].
  rewrite filter_cons. destruct (decide (selector f ≠ [])) as [Hsel|Hsel]; simpl.
  - destruct (resolveField f base acc); simpl; auto.
  - apply dec_stable in Hsel. rewrite resolveField_no_selector by done. apply IH.
Qed.

(** A rule whose query the library refuses throws the library's error. *)
Lemma resolveField_find_error f base acc message :
  selector f ≠ [] → find base (selector f) = inl message →
  resolveField f base acc = Throw (SelectorError message).
Proof.
  destruct f as [n s t vb m]. cbn [selector]. intros Hs Hfind.
  rewrite resolveField_unfold, Hfind. by case_bool_decide.
Qed.

(** When a rule writes its name: the name becomes a property of its own,
    the rule has a selector, the query succeeds, and the rule is [multi]
    or a node matched. *)
Lemma resolveField_writes f base v :
  resolveField f base ∅ = Ok {[varName f := v]} →
  varName f ≠ js "__proto__" ∧ selector f ≠ []
  ∧ ∃ els, find base (selector f) = inr els ∧ (truthy (multi f) = true ∨ els ≠ []).
Proof.
  intros Hf. split_and!.
  - destruct (resolveField_adds_own _ _ _ Hf) as [Hd|[Hn _]]; [|done].
    exfalso. by eapply (map_non_empty_singleton (M := gmap jsstring)).
  - intros Hsel. rewrite resolveField_no_selector in Hf by done.
    apply Ok_inj in Hf. by eapply (map_non_empty_singleton (M := gmap jsstring)).
  - destruct (decide (selector f = [])) as [Hsel|Hsel].
    { rewrite resolveField_no_selector in Hf by done.
      apply Ok_inj in Hf. exfalso. by eapply (map_non_empty_singleton (M := gmap jsstring)). }
    destruct (find base (selector f)) as [message|els] eqn:Hfind.
    { by rewrite (resolveField_find_error _ _ _ _ Hsel Hfind) in Hf. }
    exists els. split; [done|].
    destruct (truthy (multi f)) eqn:Hm; [by left|]. right. intros ->.
    rewrite resolveField_no_match in Hf by done.
    apply Ok_inj in Hf. by eapply (map_non_empty_singleton (M := gmap jsstring)).
Qed.

Lemma resolveField_key f base acc result k v :
  resolveField f base acc = Ok result → result !! k = Some v →
  acc !! k = Some v
  ∨ (varName f = k ∧ k ≠ js "__proto__" ∧ selector f ≠ []
     ∧ ∃ els, find base (selector f) = inr els
              ∧ (truthy (multi f) = true ∨ els ≠ [])).
Proof.
  intros Hf Hk. rewrite resolveField_result in Hf.
  destruct (resolveField f base ∅) as [d| |] eqn:E; simpl in Hf; [|done..].
  apply Ok_inj in Hf. subst result.
  destruct (resolveField_adds _ _ _ E) as [->|[w ->]].
  - left. by rewrite (left_id_L ∅ (∪)) in Hk.
  - destruct (decide (varName f = k)) as [Hn|Hn].
    + right. destruct (resolveField_writes _ _ _ E) as (? & ? & ?). by subst k.
    + left. by rewrite <- insert_union_singleton_l, lookup_insert_ne in Hk.
Qed.

(** X6. Every key of an output record is the name, other than
    [__proto__], of a rule of the list that has a selector, whose query
    succeeded, and that was either [multi] or found a node. *)
Theorem output_keys_from_rules fields base result k v :
  resolveSelectFields fields base = Ok result →
  result !! k = Some v →
  ∃ f els, f ∈ fields ∧ varName f = k ∧ k ≠ js "__proto__" ∧ selector f ≠ []
           ∧ find base (selector f) = inr els
           ∧ (truthy (multi f) = true ∨ els ≠ []).
Proof.
  unfold resolveSelectFields. intros Hloop Hk.
  cut ((∅ : IResolveFieldRecord) !! k = Some v
       ∨ ∃ f els, f ∈ fields ∧ varName f = k ∧ k ≠ js "__proto__" ∧ selector f ≠ []
                  ∧ find base (selector f) = inr els
                  ∧ (truthy (multi f) = true ∨ els ≠ [])).
  { intros [H|H]; [by rewrite lookup_empty in H|done]. }
  revert Hloop. generalize (∅ : IResolveFieldRecord).
  induction fields as [|f fields IH]; intros acc; simpl.
  - intros [= <-]. by left.
  - destruct (resolveField f base acc) as [r1| |] eqn:Hf; simpl; [|done..].
    intros Hloop. destruct (IH _ Hloop) as [Hr1|(g & els & Hg & Hrest)].
    + destruct (resolveField_key _ _ _ _ _ _ Hf Hr1)
        as [?|(? & ? & ? & els & ? & ?)]; [by left|].
      right. exists f, els. split; [left|done].
    + right. exists g, els. split; [by right|done].
Qed.

Lemma shaped_setProperty acc n v :
  (∀ k w, acc !! k = Some w → shaped w) → shaped v →
  ∀ k w, setProperty n v acc !! k = Some w → shaped w.
Proof.
  unfold setProperty. case_bool_decide; [by auto|].
  intros Hacc Hv k w [[_ <-]|[_ Hk]]%lookup_insert_Some; eauto.
Qed.

Lemma attribs_shaped el k v : (RString <$> attribs el) !! k = Some v → shaped v.
Proof.
  rewrite lookup_fmap. destruct (attribs el !! k); simpl; [|done].
  intros [= <-]. constructor.
Qed.

(** What an attribute rule reads is fixed in kind by [valueBy]: the
    attribute map, a string, or nothing this development follows. *)
Lemma attrOrEmpty_kind vb :
  (∀ el, attrOrEmpty el vb = Ok (RRecord (RString <$> attribs el)))
  ∨ (∃ name, ∀ el, attrOrEmpty el vb = Ok (RString (default [] (attr el name))))
  ∨ (∃ nested, vb = VBFields nested ∧ ∀ el, attrOrEmpty el vb = Unmodelled).
Proof.
  destruct vb as [|name|nested]; simpl; [by left| |by eauto].
  case_bool_decide; eauto.
Qed.

Lemma attrOrEmpty_shaped el vb v : attrOrEmpty el vb = Ok v → shaped v.
Proof.
  destruct (attrOrEmpty_kind vb) as [Hk|[[name Hk]|(nested & _ & Hk)]];
    rewrite Hk; [|by intros [= <-]; constructor|done].
  intros [= <-]. apply shaped_record, attribs_shaped.
Qed.

Lemma forEach_attrOrEmpty_shaped vb els attrArr :
  forEach_push (λ el, attrOrEmpty el vb) els = Ok attrArr → shaped (RArray attrArr).
Proof.
  destruct (attrOrEmpty_kind vb) as [Hk|[[name Hk]|(nested & _ & Hk)]].
  - rewrite (forEach_push_Forall2 _ els
               (RRecord <$> ((λ el, RString <$> attribs el) <$> els))).
    + intros <-%Ok_inj. apply shaped_records, Forall_fmap, Forall_forall.
      intros el _ k v. apply attribs_shaped.
    + rewrite <- list_fmap_compose.
      apply Forall2_fmap_r, Forall_Forall2_diag, Forall_forall. intros el _. apply Hk.
  - rewrite (forEach_push_Forall2 _ els
               (RString <$> ((λ el, default [] (attr el name)) <$> els))).
    + intros <-%Ok_inj. apply shaped_strings.
    + rewrite <- list_fmap_compose.
      apply Forall2_fmap_r, Forall_Forall2_diag, Forall_forall. intros el _. apply Hk.
  - destruct els as [|el els]; simpl.
    + intros <-%Ok_inj. apply (shaped_strings []).
    + by rewrite Hk.
Qed.

Lemma resolveLoop_shaped_of fields :
  Forall (λ f, ∀ base acc result,
            resolveField f base acc = Ok result →
            (∀ k w, acc !! k = Some w → shaped w) →
            ∀ k w, result !! k = Some w → shaped w) fields →
  ∀ base acc result,
    resolveLoop fields base acc = Ok result →
    (∀ k w, acc !! k = Some w → shaped w) →
    ∀ k w, result !! k = Some w → shaped w.
Proof.
  induction 1 as [|f fields Hf _ IH]; intros base acc result; simpl.
  - by intros [= <-].
  - destruct (resolveField f base acc) as [r1| |] eqn:E; simpl; [|done..].
    intros Hloop Hacc. eapply IH; [done|]. by eapply Hf.
Qed.

Lemma resolveField_shaped f base acc result :
  resolveField f base acc = Ok result →
  (∀ k w, acc !! k = Some w → shaped w) →
  ∀ k w, result !! k = Some w → shaped w.
Proof.
  revert base acc result.
  induction f as [n s t vb m IHvb] using ISelectField_nested_ind.
  assert (∀ el sub, resolveNested vb el = Ok sub →
                    ∀ k w, sub !! k = Some w → shaped w) as Hnested.
  { intros el sub. destruct vb as [| |nested]; simpl.
    - done.
    - intros [= <-] k w. by rewrite lookup_empty.
    - intros Hsub. eapply resolveLoop_shaped_of; [exact IHvb|exact Hsub|].
      intros k w. by rewrite lookup_empty. }
  intros base acc result. rewrite resolveField_unfold.
  case_bool_decide; [by intros [= <-]|].
  destruct (find base s) as [message|els]; [done|]. destruct (truthy m).
  - case_bool_decide; [|case_bool_decide; [|case_bool_decide; [|done]]].
    + intros <-%Ok_inj Hacc. apply shaped_setProperty; [done|].
      replace ((λ el, RString (formatText (text el))) <$> els)
        with (RString <$> ((λ el, formatText (text el)) <$> els))
        by (by rewrite <- list_fmap_compose).
      apply shaped_strings.
    + destruct (forEach_push _ _) as [attrArr| |] eqn:E; simpl; [|done..].
      intros <-%Ok_inj Hacc. apply shaped_setProperty; [done|].
      by eapply forEach_attrOrEmpty_shaped.
    + destruct (forEach_push _ _) as [subRecords| |] eqn:E; simpl; [|done..].
      intros <-%Ok_inj Hacc. apply shaped_setProperty; [done|]. apply shaped_records.
      apply forEach_push_Ok_inv in E. clear -E Hnested.
      induction E as [|el sub els subs Hel _ IH]; constructor; eauto.
  - destruct (head els) as [el|]; [|by intros [= <-]].
    case_bool_decide; [|case_bool_decide; [|case_bool_decide; [|done]]].
    + intros <-%Ok_inj Hacc. apply shaped_setProperty; [done|]. apply shaped_string.
    + destruct (attrOrEmpty el vb) as [a| |] eqn:E; simpl; [|done..].
      intros <-%Ok_inj Hacc. apply shaped_setProperty; [done|].
      by eapply attrOrEmpty_shaped.
    + destruct (resolveNested vb el) as [sub| |] eqn:E; simpl; [|done..].
      intros <-%Ok_inj Hacc. apply shaped_setProperty; [done|]. apply shaped_record. eauto.
Qed.

Lemma forEach_push_modelled {A B} (k : A → Outcome B) xs :
  (∀ x, k x ≠ Unmodelled) → forEach_push k xs ≠ Unmodelled.
Proof.
  intros Hk. induction xs as [|x xs IH]; simpl; [done|].
  specialize (Hk x). destruct (k x); [|done..].
  by destruct (forEach_push k xs).
Qed.

Lemma resolveLoop_modelled_of fields :
  Forall (λ f, ∀ base acc, resolveField f base acc ≠ Unmodelled) fields →
  ∀ base acc, resolveLoop fields base acc ≠ Unmodelled.
Proof.
  induction 1 as [|f fields Hf _ IH]; intros base acc; simpl; [done|].
  specialize (Hf base acc). destruct (resolveField f base acc); simpl; auto.
Qed.

Lemma rule_in_below g f nested h :
  valueBy f = VBFields nested → g ∈ nested → rule_in h [g] → rule_in h [f].
Proof.
  intros Hvb Hg Hh. eapply rule_in_nested; [left|exact Hvb|].
  eapply rule_in_weaken; [|exact Hh]. by intros ? ->%list_elem_of_singleton.
Qed.

(** Where no attribute rule carries a rule list, the evaluation stays
    within what this development follows. *)
Lemma resolveField_modelled f :
  (∀ g, rule_in g [f] → attr_by_name g) →
  ∀ base acc, resolveField f base acc ≠ Unmodelled.
Proof.
  induction f as [n s t vb m IHvb] using ISelectField_nested_ind.
  intros Hattr.
  assert (∀ el, resolveNested vb el ≠ Unmodelled) as Hnested.
  { intros el. destruct vb as [| |nested]; simpl; [done..|].
    apply resolveLoop_modelled_of. simpl in IHvb.
    apply Forall_forall. intros g Hg.
    apply (proj1 (Forall_forall _ _) IHvb g Hg).
    intros h Hh. eapply Hattr, rule_in_below; [reflexivity|exact Hg|exact Hh]. }
  assert (t = js "attr" → ∀ el, attrOrEmpty el vb ≠ Unmodelled) as Hread.
  { intros Ht el.
    destruct (attrOrEmpty_kind vb) as [Hk|[[name Hk]|(nested & -> & _)]];
      [by rewrite Hk..|].
    exfalso. eapply (Hattr (SelectField n s t (VBFields nested) m)); [|exact Ht|done].
    apply rule_in_here. left. }
  intros base acc. rewrite resolveField_unfold.
  case_bool_decide; [done|]. destruct (find base s) as [message|els]; [done|].
  destruct (truthy m).
  - case_bool_decide; [done|]. case_bool_decide; [|case_bool_decide; [|done]].
    + pose proof (forEach_push_modelled (λ el, attrOrEmpty el vb) els) as Hall.
      destruct (forEach_push _ els); simpl; [done..|].
      exfalso. by apply Hall; [apply Hread|].
    + pose proof (forEach_push_modelled (resolveNested vb) els Hnested) as Hall.
      by destruct (forEach_push _ els).
  - destruct (head els) as [el|]; [|done].
    case_bool_decide; [done|]. case_bool_decide; [|case_bool_decide; [|done]].
    + specialize (Hread ltac:(done) el). by destruct (attrOrEmpty el vb).
    + specialize (Hnested el). by destruct (resolveNested vb el).
Qed.

(** X7. When no attribute rule of the list, at any depth, carries a rule
    list for a [valueBy], an evaluation throws or returns a record, and the
    record holds only the values [IDefaultFieldResult] declares, at every
    depth: strings, arrays of strings, records of such values and arrays of
    such records. *)
Theorem output_values_shaped fields base :
  (∀ g, rule_in g fields → attr_by_name g) →
  resolveSelectFields fields base ≠ Unmodelled
  ∧ ∀ result, resolveSelectFields fields base = Ok result → shaped (RRecord result).
Proof.
  intros Hattr. split.
  - apply resolveLoop_modelled_of, Forall_forall. intros f Hf.
    apply resolveField_modelled. intros g Hg. apply Hattr.
    eapply rule_in_weaken; [|exact Hg]. by intros ? ->%list_elem_of_singleton.
  - intros result Hloop. apply shaped_record.
    eapply (resolveLoop_shaped_of fields); [|exact Hloop|].
    + apply Forall_forall. intros f _ ???. apply resolveField_shaped.
    + intros k w. by rewrite lookup_empty.
Qed.

(** What a [multi] rule's array holds: for each matched node, in order,
    the value the rule's kind gives that node. *)
Definition value_of (valueType : jsstring) (valueBy : ISelectValueBy ISelectField)
    (el : Node) (v : IResolveFieldResult) : Prop :=
  (valueType = js "text" ∧ v = RString (formatText (text el)))
  ∨ (valueType = js "attr" ∧ attrOrEmpty el valueBy = Ok v)
  ∨ (valueType = js "object" ∧ ∃ r, resolveNested valueBy el = Ok r ∧ v = RRecord r).

Lemma singleton_array_inj n (l l' : list IResolveFieldResult) :
  setProperty n (RArray l) ∅ = ({[n := RArray l']} : IResolveFieldRecord) → l = l'.
Proof.
  unfold setProperty. case_bool_decide.
  - intros Hempty. exfalso. by eapply (map_non_empty_singleton (M := gmap jsstring)).
  - intros Heq. apply (f_equal (.!! n)) in Heq.
    rewrite lookup_insert_eq, lookup_singleton_eq in Heq. congruence.
Qed.

Lemma multi_output_inv n s t vb m base values :
  truthy m = true →
  resolveField (SelectField n s t vb m) base ∅ = Ok {[n := RArray values]} →
  ∃ els, find base s = inr els ∧ Forall2 (value_of t vb) els values.
Proof.
  intros Hm Hmulti.
  destruct (resolveField_writes (SelectField n s t vb m) base _ Hmulti)
    as (_ & Hs & els & Hfind & _).
  cbn [selector] in Hs, Hfind. exists els. split; [done|].
  revert Hmulti. rewrite resolveField_unfold, Hm, Hfind. unfold value_of.
  rewrite bool_decide_eq_false_2 by done.
  case_bool_decide; [|case_bool_decide; [|case_bool_decide; [|done]]].
  - intros <-%Ok_inj%singleton_array_inj.
    apply Forall2_fmap_r, Forall_Forall2_diag, Forall_forall. auto.
  - destruct (forEach_push _ _) as [attrArr| |] eqn:E; simpl; [|done..].
    intros <-%Ok_inj%singleton_array_inj. apply forEach_push_Ok_inv in E.
    eapply Forall2_impl; [exact E|]. simpl. eauto 10.
  - destruct (forEach_push _ _) as [subRecords| |] eqn:E; simpl; [|done..].
    intros <-%Ok_inj%singleton_array_inj. apply forEach_push_Ok_inv in E.
    apply Forall2_fmap_r. eapply Forall2_impl; [exact E|]. simpl. eauto 10.
Qed.

(** X8. The same rule without [multi] gives the first entry of what it
    gives with [multi], or no key when the [multi] array is empty. *)
Theorem single_is_first_of_multi n s t vb m1 m2 base values :
  truthy m1 = true →
  truthy m2 = false →
  resolveSelectFields [SelectField n s t vb m1] base = Ok {[n := RArray values]} →
  resolveSelectFields [SelectField n s t vb m2] base
  = Ok (match values with [] => ∅ | v :: _ => {[n := v]} end).
Proof.
  intros Hm1 Hm2. rewrite !resolveSelectFields_one. intros Hmulti.
  destruct (multi_output_inv _ _ _ _ _ _ _ Hm1 Hmulti) as (els & Hfind & Hvalues).
  destruct (resolveField_writes (SelectField n s t vb m1) base _ Hmulti)
    as (Hn & Hs & _).
  cbn [selector varName] in Hs, Hn.
  rewrite resolveField_unfold, Hm2, Hfind, bool_decide_eq_false_2 by done.
  destruct Hvalues as [|el v els vs Hv _]; [done|]. simpl.
  destruct Hv as [[-> ->]|[(-> & Ha)|(-> & r & Hr & ->)]].
  - by rewrite bool_decide_eq_true_2, setProperty_own.
  - rewrite bool_decide_eq_false_2, bool_decide_eq_true_2, Ha by done. simpl.
    by rewrite setProperty_own.
  - rewrite !bool_decide_eq_false_2, bool_decide_eq_true_2, Hr by done. simpl.
    by rewrite setProperty_own.
Qed.

(** X9. A [multi] rule that succeeds lists exactly one value for each
    node its selector matched. *)
Theorem multi_one_value_per_match n s t vb m base values :
  truthy m = true →
  resolveSelectFields [SelectField n s t vb m] base = Ok {[n := RArray values]} →
  ∃ els, find base s = inr els ∧ length values = length els.
Proof.
  intros Hm. rewrite resolveSelectFields_one. intros Hmulti.
  destruct (multi_output_inv _ _ _ _ _ _ _ Hm Hmulti) as (els & Hfind & Hvalues).
  exists els. split; [done|]. symmetry. by eapply Forall2_length.
Qed.

Lemma resolveField_commute f g base acc r1 r :
  varName f ≠ varName g →
  resolveField f base acc = Ok r1 → resolveField g base r1 = Ok r →
  ∃ r2, resolveField g base acc = Ok r2 ∧ resolveField f base r2 = Ok r.
Proof.
  intros Hne. rewrite (resolveField_result f base acc), (resolveField_result g base r1).
  destruct (resolveField f base ∅) as [df| |] eqn:Hf; simpl; [|done..].
  destruct (resolveField g base ∅) as [dg| |] eqn:Hg; simpl; [|done..].
  intros [= <-] [= <-]. exists (dg ∪ acc).
  rewrite (resolveField_result g base acc), Hg.
  rewrite (resolveField_result f base (dg ∪ acc)), Hf. simpl.
  split; [done|]. f_equal.
  destruct (resolveField_adds _ _ _ Hf) as [->|[v ->]];
    destruct (resolveField_adds _ _ _ Hg) as [->|[w ->]];
    rewrite ?(left_id_L ∅ (∪)); try done.
  rewrite <- !insert_union_singleton_l. by apply insert_insert_ne.
Qed.

Lemma resolveLoop_permutation fields fields' base :
  fields ≡ₚ fields' →
  NoDup (varName <$> fields) →
  ∀ acc result,
    resolveLoop fields base acc = Ok result → resolveLoop fields' base acc = Ok result.
Proof.
  induction 1 as [|x l l' Hperm IH|x y l|l l' l'' Hperm1 IH1 Hperm2 IH2];
    intros Hnodup acc result.
  - done.
  - rewrite fmap_cons in Hnodup. apply NoDup_cons in Hnodup as [_ Hnodup]. simpl.
    destruct (resolveField x base acc); simpl; [|done..]. by apply IH.
  - rewrite !fmap_cons in Hnodup. apply NoDup_cons in Hnodup as [Hyx _].
    assert (varName y ≠ varName x) as Hne.
    { intros Heq. apply Hyx. rewrite Heq. left. }
    simpl. destruct (resolveField y base acc) as [r1| |] eqn:Hy; simpl; [|done..].
    destruct (resolveField x base r1) as [r2| |] eqn:Hx; simpl; [|done..].
    destruct (resolveField_commute _ _ _ _ _ _ Hne Hy Hx) as (r3 & Hx' & Hy').
    rewrite Hx'. simpl. by rewrite Hy'.
  - intros H. apply IH2; [by rewrite <- Hperm1|]. by apply IH1.
Qed.

(** X10. When no two rules share a name and the evaluation succeeds, every
    reordering of the list succeeds too and binds every key to the same
    value.  (The order in which the keys of the returned object are
    enumerated is not part of a record here, and is not covered.) *)
Theorem distinct_names_order_irrelevant fields fields' base result :
  fields ≡ₚ fields' →
  NoDup (varName <$> fields) →
  resolveSelectFields fields base = Ok result →
  ∃ result', resolveSelectFields fields' base = Ok result'
             ∧ ∀ k, result' !! k = result !! k.
Proof.
  intros Hperm Hnodup Hloop. exists result. split; [|done].
  by apply (resolveLoop_permutation fields).
Qed.

Lemma forEach_push_all_ok {A B} (k : A → Outcome B) xs :
  (∀ x, ∃ b, k x = Ok b) → ∃ bs, forEach_push k xs = Ok bs.
Proof.
  intros Hk. induction xs as [|x xs [bs IH]]; simpl; [by eexists|].
  destruct (Hk x) as [b ->]. rewrite IH. by eexists.
Qed.

Lemma resolveLoop_all_ok fields :
  Forall (λ f, ∀ base acc, ∃ result, resolveField f base acc = Ok result) fields →
  ∀ base acc, ∃ result, resolveLoop fields base acc = Ok result.
Proof.
  induction 1 as [|f fields Hf _ IH]; intros base acc; simpl; [by eexists|].
  destruct (Hf base acc) as [r1 ->]. simpl. apply IH.
Qed.

Lemma resolveField_well_typed f :
  well_typed f →
  (∀ g, rule_in g [f] → selector g ≠ [] → ∀ el, ∃ els, find el (selector g) = inr els) →
  ∀ base acc, ∃ result, resolveField f base acc = Ok result.
Proof.
  induction f as [n s t vb m IHvb] using ISelectField_nested_ind.
  intros Hwt Hquery base acc. rewrite resolveField_unfold.
  case_bool_decide as Hs; [by eexists|].
  destruct (Hquery (SelectField n s t vb m) ltac:(apply rule_in_here; left) Hs base)
    as [els Hfind].
  cbn [selector] in Hfind. rewrite Hfind.
  inversion Hwt as [| |? ? nested ? Hnested]; subst.
  - rewrite bool_decide_eq_true_2 by done.
    destruct (truthy m); [by eexists|]. destruct (head els); by eexists.
  - rewrite bool_decide_eq_false_2, bool_decide_eq_true_2 by done.
    assert (∀ el, ∃ v, attrOrEmpty el (VBString name) = Ok v) as Hread.
    { intros el. simpl. case_bool_decide; by eexists. }
    destruct (truthy m).
    + destruct (forEach_push_all_ok (λ el, attrOrEmpty el (VBString name)) els)
        as [attrArr ->]; [done|]. by eexists.
    + destruct (head els) as [el|]; [|by eexists].
      destruct (Hread el) as [v ->]. by eexists.
  - rewrite !bool_decide_eq_false_2, bool_decide_eq_true_2 by done.
    assert (∀ el, ∃ r, resolveNested (VBFields nested) el = Ok r) as Hall.
    { intros el. apply resolveLoop_all_ok. simpl in IHvb.
      apply Forall_forall. intros g Hg.
      apply (proj1 (Forall_forall _ _) IHvb g Hg).
      - by apply (proj1 (Forall_forall _ _) Hnested).
      - intros h Hh. eapply Hquery, rule_in_below; [reflexivity|exact Hg|exact Hh]. }
    destruct (truthy m).
    + destruct (forEach_push_all_ok _ els Hall) as [subRecords ->]. by eexists.
    + destruct (head els) as [el|]; [|by eexists].
      destruct (Hall el) as [r ->]. by eexists.
Qed.

(** X15. Rules that pair [valueType] with [valueBy] as the declared types
    do (text; attr with a name; object with a nested list of such rules),
    and whose selectors the library accepts, never make the evaluator
    fail: on every document the evaluation returns a record. *)
Theorem well_typed_rules_never_fail fields base :
  Forall well_typed fields →
  (∀ g, rule_in g fields → selector g ≠ [] →
        ∀ el, ∃ els, find el (selector g) = inr els) →
  ∃ result, resolveSelectFields fields base = Ok result.
Proof.
  intros Hwt Hquery. apply resolveLoop_all_ok.
  apply Forall_forall. intros f Hf.
  apply resolveField_well_typed; [by apply (proj1 (Forall_forall _ _) Hwt)|].
  intros g Hg. apply Hquery.
  eapply rule_in_weaken; [|exact Hg]. by intros ? ->%list_elem_of_singleton.
Qed.

Lemma resolveField_unmatched f base acc :
  (selector f ≠ [] → find base (selector f) = inr []) →
  (truthy (multi f) = true → selector f ≠ [] → recognized (valueType f)) →
  resolveField f base acc
  = Ok (if decide (truthy (multi f) = true ∧ selector f ≠ [])
        then setProperty (varName f) (RArray []) acc else acc).
Proof.
  intros Hfind Hkind. destruct f as [n s t vb m]. cbn [multi selector varName valueType] in *.
  rewrite resolveField_unfold.
  destruct (decide (truthy m = true ∧ s ≠ [])) as [[Hm Hs]|Hno].
  - rewrite bool_decide_eq_false_2, Hfind, Hm by done.
    destruct (Hkind Hm Hs) as [->|[->| ->]]; repeat case_bool_decide; done.
  - case_bool_decide; [done|]. rewrite Hfind by done.
    destruct (truthy m) eqn:Hm; [by destruct Hno|done].
Qed.

(** X16. On a document in which the selectors of a rule list match
    nothing, a list whose [multi] rules have known kinds evaluates without
    error to the record that binds the name of every [multi] rule with a
    selector, [__proto__] apart, to the empty array and holds no other
    key. *)
Theorem unmatched_document_output fields base :
  Forall (λ f, selector f ≠ [] → find base (selector f) = inr []) fields →
  Forall (λ f, truthy (multi f) = true → selector f ≠ [] → recognized (valueType f))
         fields →
  ∃ result,
    resolveSelectFields fields base = Ok result
    ∧ ∀ k, result !! k
           = if decide (Exists (writes_unmatched k) fields) then Some (RArray []) else None.
Proof.
  intros Hfinds Hkinds. unfold resolveSelectFields.
  cut (∀ acc, ∃ result,
         resolveLoop fields base acc = Ok result
         ∧ ∀ k, result !! k
                = if decide (Exists (writes_unmatched k) fields)
                  then Some (RArray []) else acc !! k).
  { intros Hcut. destruct (Hcut ∅) as (result & Hloop & Hkeys).
    exists result. split; [done|]. intros k. rewrite Hkeys.
    by rewrite lookup_empty. }
  induction Hkinds as [|f fields Hf _ IH]; intros acc.
  - exists acc. split; [done|]. intros k. rewrite decide_False; [done|].
    by intros ?%Exists_nil.
  - apply Forall_cons in Hfinds as [Hfind Hfinds]. simpl.
    rewrite (resolveField_unmatched _ _ _ Hfind Hf). simpl.
    destruct (IH Hfinds (if decide (truthy (multi f) = true ∧ selector f ≠ [])
                         then setProperty (varName f) (RArray []) acc else acc))
      as (result & -> & Hkeys).
    exists result. split; [done|]. intros k. rewrite Hkeys.
    destruct (decide (Exists (writes_unmatched k) fields)) as [Hex|Hex].
    { rewrite decide_True; [done|]. by right. }
    destruct (decide (truthy (multi f) = true ∧ selector f ≠ [])) as [[Hm Hs]|Hno].
    + destruct (decide (varName f = k ∧ k ≠ js "__proto__")) as [[Hk Hp]|Hk].
      * rewrite decide_True; [|by left]. subst k.
        rewrite setProperty_own by done. apply lookup_insert_eq.
      * rewrite decide_False; [|by intros [(? & ? & _)|?]%Exists_cons; [apply Hk|]].
        unfold setProperty. case_bool_decide as Hproto; [done|].
        apply lookup_insert_ne. intros Heq. apply Hk. split; [done|]. by subst k.
    + rewrite decide_False; [done|].
      intros [(_ & _ & ? & ?)|?]%Exists_cons; [|done]. by apply Hno.
Qed.

End ExtractorExtras.

(** ** [execute] *)

Section DriverExtras.
Context {Node : Type} `{!Cheerio Node}.
Variable JSON_parse : jsstring → jsstring + ParsedRules.
Variable load : jsstring → Node.
Variable message_of : Error → jsstring.

Local Abbreviation pushAll := (pushAll load).
Local Abbreviation tryItem := (tryItem JSON_parse load).
Local Abbreviation errorItem := (errorItem message_of).
Local Abbreviation executeLoop := (executeLoop JSON_parse load message_of).
Local Abbreviation execute := (execute JSON_parse load message_of).
Local Abbreviation contribution := (contribution JSON_parse load message_of).
Local Abbreviation contributions := (contributions JSON_parse load message_of).

(** The documents of an item: the markup array the driver reads for it,
    none when the read fails. *)
Definition documents (it : Item) (idx : nat) : list jsstring :=
  match readHtmlArray it idx with
  | Ok htmlArray => htmlArray
  | _ => []
  end.

(** The index of each item, once for each of its documents. *)
Fixpoint document_tags (items : list Item) (idx : nat) : list nat :=
  match items with
  | [] => []
  | it :: items' => replicate (length (documents it idx)) idx ++ document_tags items' (S idx)
  end.

Lemma execute_unfold continueOnFail items :
  execute continueOnFail items
  = obind (λ returnData, Ok [returnData]) (executeLoop continueOnFail items 0 []).
Proof. reflexivity. Qed.

Lemma executeLoop_unfold continueOnFail it items idx returnData :
  executeLoop continueOnFail (it :: items) idx returnData
  = match tryItem it idx returnData with
    | (returnData', Ok _) => executeLoop continueOnFail items (S idx) returnData'
    | (returnData', Throw execError) =>
        if continueOnFail then
          executeLoop continueOnFail items (S idx) (returnData' ++ [errorItem execError idx])
        else Throw execError
    | (_, Unmodelled) => Unmodelled
    end.
Proof. reflexivity. Qed.

Lemma executeLoop_no_failure items idx returnData out :
  executeLoop false items idx returnData = Ok out →
  executeLoop true items idx returnData = Ok out.
Proof.
  revert idx returnData. induction items as [|it items IH]; intros idx returnData; [done|].
  rewrite !executeLoop_unfold.
  destruct (tryItem it idx returnData) as [returnData' [[]|e|]]; [|done..].
  apply IH.
Qed.

(** X11. When no item fails, continue-on-failure makes no difference:
    whatever [execute] returns with the mode off it returns with the mode
    on. *)
Theorem no_failure_mode_irrelevant items outputs :
  execute false items = Ok outputs → execute true items = Ok outputs.
Proof.
  rewrite !execute_unfold.
  destruct (executeLoop false items 0 []) as [out| |] eqn:E; [|done..].
  by rewrite (executeLoop_no_failure _ _ _ _ E).
Qed.

Lemma pushAll_ok_tags rules idx htmlArray pushed :
  pushAll rules idx htmlArray [] = (pushed, Ok ()) →
  pairedItem <$> pushed = replicate (length htmlArray) idx.
Proof.
  revert pushed. induction htmlArray as [|html htmlArray IH]; intros pushed; simpl.
  - by intros [= <-].
  - destruct (resolveSelectFields rules (load html)) as [r| |]; [|done..].
    rewrite pushAll_acc.
    destruct (pushAll rules idx htmlArray []) as [p o] eqn:Ep. simpl.
    intros [= <- ->]. simpl. f_equal. by apply IH.
Qed.

Lemma tryItem_ok_tags it idx pushed :
  tryItem it idx [] = (pushed, Ok ()) →
  pairedItem <$> pushed = replicate (length (documents it idx)) idx.
Proof.
  rewrite tryItem_unfold. unfold documents.
  destruct (parseRules _ _) as [rules| |]; [|done..].
  destruct (readHtmlArray it idx) as [htmlArray| |]; [|done..].
  apply pushAll_ok_tags.
Qed.

Lemma executeLoop_stop_tags items idx returnData out :
  executeLoop false items idx returnData = Ok out →
  ∃ rest, out = returnData ++ rest ∧ pairedItem <$> rest = document_tags items idx.
Proof.
  revert idx returnData. induction items as [|it items IH]; intros idx returnData.
  - intros [= <-]. exists []. by rewrite app_nil_r.
  - rewrite executeLoop_unfold, tryItem_acc.
    destruct (tryItem it idx []) as [pushed [[]|e|]] eqn:Hit; simpl; [|done..].
    intros (rest & -> & Hrest)%IH. exists (pushed ++ rest). split.
    + by rewrite app_assoc.
    + by rewrite fmap_app, Hrest, (tryItem_ok_tags _ _ _ Hit).
Qed.

(** X12. When [execute] succeeds with continue-on-failure off, it returns
    one output branch holding one record for each document of each item,
    in input order: the record tags are the item indices, each repeated
    once for each document of its item (an item with an empty markup array
    adds nothing). *)
Theorem one_record_per_document items outputs :
  execute false items = Ok outputs →
  ∃ out, outputs = [out] ∧ pairedItem <$> out = document_tags items 0.
Proof.
  rewrite execute_unfold.
  destruct (executeLoop false items 0 []) as [out| |] eqn:E; [|done..].
  intros [= <-]. exists out. split; [done|].
  by destruct (executeLoop_stop_tags _ _ _ _ E) as (rest & -> & Hrest).
Qed.

(** An item with exactly one document, whenever its markup can be read. *)
Definition single_document (it : Item) : Prop :=
  ∀ idx htmlArray, readHtmlArray it idx = Ok htmlArray → length htmlArray = 1.

Lemma contribution_single it idx c :
  single_document it → contribution it idx = Some c → pairedItem <$> c = [idx].
Proof.
  intros Hone. rewrite contribution_unfold, tryItem_unfold.
  destruct (parseRules _ _) as [rules| |]; [|by intros [= <-]|done].
  destruct (readHtmlArray it idx) as [htmlArray| |] eqn:Hread; [|by intros [= <-]|done].
  specialize (Hone _ _ Hread).
  destruct htmlArray as [|html [|??]]; [done| |done]. simpl.
  destruct (resolveSelectFields rules (load html)); by intros [= <-].
Qed.

Lemma contributions_single items idx cs :
  Forall single_document items →
  contributions items idx = Some cs →
  pairedItem <$> cs = seq idx (length items).
Proof.
  intros Hone. revert idx cs.
  induction Hone as [|it items Hit _ IH]; intros idx cs; simpl.
  - by intros [= <-].
  - destruct (contribution it idx) as [c|] eqn:Hc; [|done].
    destruct (contributions items (S idx)) as [cs'|] eqn:Hcs; [|done].
    intros [= <-]. rewrite fmap_app, (IH _ _ Hcs).
    by rewrite (contribution_single _ _ _ Hit Hc).
Qed.

(** X13. With continue-on-failure on and every item carrying a single
    document, the output lines up with the input: there is exactly one
    record for each item, normal or error, and the record at position [i]
    is tagged [i]. *)
Theorem single_document_items_aligned items outputs :
  Forall single_document items →
  execute true items = Ok outputs →
  ∃ out, outputs = [out] ∧ pairedItem <$> out = seq 0 (length items).
Proof.
  intros Hone. rewrite execute_unfold, executeLoop_continue.
  destruct (contributions items 0) as [cs|] eqn:Hcs; [|done].
  intros [= <-]. exists cs. split; [done|].
  by apply contributions_single.
Qed.

(** X14. Unusable input makes the item fail before any document is
    evaluated, and the item adds the error record alone: rules that do not
    parse give the rules error, also when the source property is missing
    as well; a missing JSON property gives the no-property error carrying
    the item index, whatever the rules are; an error of the binary helper
    is passed on as it is. *)
Theorem unusable_input_errors it idx :
  (∀ message,
     JSON_parse (rulesParams it) = inl message →
     contribution it idx
     = Some [errorItem (NodeOperationError (rulesInvalid_message (rulesParams it))
                                           (OptMessage message)) idx])
  ∧ (∀ parsed,
       JSON_parse (rulesParams it) = inr parsed →
       sourceType it = js "json" →
       json_get it (dataPropertyName it) = None →
       contribution it idx
       = Some [errorItem (NodeOperationError (noProperty_message (dataPropertyName it))
                                             (OptItemIndex idx)) idx])
  ∧ (∀ parsed e,
       JSON_parse (rulesParams it) = inr parsed →
       sourceType it ≠ js "json" →
       binary_get it (dataPropertyName it) = inl e →
       contribution it idx = Some [errorItem e idx]).
Proof.
  split_and!.
  - intros message Hparse. rewrite contribution_unfold, tryItem_unfold.
    unfold parseRules. by rewrite Hparse.
  - intros parsed Hparse Hsource Hget. rewrite contribution_unfold, tryItem_unfold.
    unfold parseRules, readHtmlArray. rewrite Hparse, Hget.
    by rewrite bool_decide_eq_true_2.
  - intros parsed e Hparse Hsource Hget. rewrite contribution_unfold, tryItem_unfold.
    unfold parseRules, readHtmlArray. rewrite Hparse, Hget.
    by rewrite bool_decide_eq_false_2.
Qed.

Lemma pushAll_no_rules idx htmlArray returnData :
  pushAll [] idx htmlArray returnData
  = (returnData ++ ((λ _, {| json := ∅; pairedItem := idx |}) <$> htmlArray), Ok ()).
Proof.
  revert returnData. induction htmlArray as [|html htmlArray IH]; intros returnData; simpl.
  - by rewrite app_nil_r.
  - change (resolveSelectFields [] (load html)) with (Ok (∅ : IResolveFieldRecord)).
    cbv beta iota. by rewrite IH, <- app_assoc.
Qed.

(** X17. A rules payload that parses to a falsy value or to an empty
    array cannot make extraction fail: an item whose markup can be read
    adds one empty record for each of its documents. *)
Theorem no_rules_empty_records it idx parsed htmlArray :
  JSON_parse (rulesParams it) = inr parsed →
  toRules parsed = [] →
  readHtmlArray it idx = Ok htmlArray →
  contribution it idx
  = Some ((λ _, {| json := ∅; pairedItem := idx |}) <$> htmlArray).
Proof.
  intros Hparse Hrules Hread. rewrite contribution_unfold, tryItem_unfold.
  unfold parseRules. rewrite Hparse, Hrules, Hread, pushAll_no_rules. done.
Qed.

End DriverExtras.

(** ** The further properties on concrete documents *)

Module ExtraExamples.
Import Dom DomFacts Examples.
Local Open Scope string_scope.

Definition first_item_rule : ISelectField := rule "items" "li.x" "text" VBUndefined None.
Definition list_rule : ISelectField := rule "list" "ul" "text" VBUndefined None.
Definition titles_rule : ISelectField :=
  rule "titles" "p" "attr" (VBString (js "title")) (Some true).

Lemma rule_in_nil g : ¬ rule_in g [].
Proof.
  inversion 1 as [? Hin|f ? nested Hin _ _]; by apply elem_of_nil in Hin.
Qed.

Lemma rule_in_cons_inv g f fields :
  rule_in g (f :: fields) →
  g = f ∨ (∃ nested, valueBy f = VBFields nested ∧ rule_in g nested) ∨ rule_in g fields.
Proof.
  inversion 1 as [? Hin|f' ? nested Hin Hvb Hnested]; subst.
  - apply elem_of_cons in Hin as [->|Hin]; [by left|]. right. right. by apply rule_in_here.
  - apply elem_of_cons in Hin as [->|Hin]; [by eauto|].
    right. right. by eapply rule_in_nested.
Qed.

(** The rules of a concrete list, at every depth, one goal for each. *)
Ltac rule_in_cases :=
  repeat match goal with
  | H : rule_in _ [] |- _ => by apply rule_in_nil in H
  | H : rule_in _ (_ :: _) |- _ =>
      let Hvb := fresh "Hvb" in
      apply rule_in_cons_inv in H as [->|[(? & Hvb & H)|H]];
      [ | vm_compute in Hvb; first [discriminate Hvb | injection Hvb as <-] | ]
  end.

(** The selectors the document model accepts. *)
Lemma dom_find_ok (x : Node) (sel : jsstring) :
  bool_decide (91%N ∈ sel) = false → ∃ els, find x sel = inr els.
Proof.
  intros Hsel. simpl. unfold dom_find. rewrite Hsel. clear Hsel.
  case_bool_decide; [eexists; reflexivity|].
  destruct (subtree _ _); eexists; reflexivity.
Qed.

Lemma output_keys_from_rules_witness :
  resolveSelectFields [missing_rule; items_rule] (root list_doc)
  = Ok {[ js "items" := RArray [RString (js "1"); RString (js "2")] ]}
  ∧ ∃ f els, f ∈ [missing_rule; items_rule] ∧ varName f = js "items"
             ∧ js "items" ≠ js "__proto__" ∧ selector f ≠ []
             ∧ find (root list_doc) (selector f) = inr els
             ∧ (truthy (multi f) = true ∨ els ≠ []).
Proof.
  assert (resolveSelectFields [missing_rule; items_rule] (root list_doc)
          = Ok {[ js "items" := RArray [RString (js "1"); RString (js "2")] ]}) as Hrun
    by (vm_compute; reflexivity).
  split; [exact Hrun|].
  eapply (output_keys_from_rules _ _ _ (js "items")); [exact Hrun|].
  vm_compute. reflexivity.
Defined.

Definition attributes_rule : ISelectField := rule "attributes" "span" "attr" VBUndefined None.

Lemma output_values_shaped_witness :
  (∀ g, rule_in g [card_rule; titles_rule; attributes_rule] → attr_by_name g)
  ∧ resolveSelectFields [card_rule; titles_rule; attributes_rule] (root card_doc)
    = Ok {[ js "card" := RRecord {[ js "label" := RArray [RString (js "in")] ]};
            js "titles" := RArray [];
            js "attributes" := RRecord ∅ ]}
  ∧ shaped (RRecord {[ js "card" := RRecord {[ js "label" := RArray [RString (js "in")] ]};
                       js "titles" := RArray [];
                       js "attributes" := RRecord ∅ ]}).
Proof.
  assert (∀ g, rule_in g [card_rule; titles_rule; attributes_rule] → attr_by_name g)
    as Hattr.
  { intros g Hg Ht nested Hvb. rule_in_cases;
      first [vm_compute in Ht; discriminate Ht | vm_compute in Hvb; discriminate Hvb]. }
  assert (resolveSelectFields [card_rule; titles_rule; attributes_rule] (root card_doc)
          = Ok {[ js "card" := RRecord {[ js "label" := RArray [RString (js "in")] ]};
                  js "titles" := RArray [];
                  js "attributes" := RRecord ∅ ]}) as Hrun
    by (vm_compute; reflexivity).
  split_and!; [exact Hattr|exact Hrun|].
  exact (proj2 (output_values_shaped _ (root card_doc) Hattr) _ Hrun).
Defined.

Lemma single_is_first_of_multi_witness :
  resolveSelectFields [items_rule] (root list_doc)
  = Ok {[ js "items" := RArray [RString (js "1"); RString (js "2")] ]}
  ∧ resolveSelectFields [first_item_rule] (root list_doc)
    = Ok {[ js "items" := RString (js "1") ]}.
Proof.
  assert (resolveSelectFields [items_rule] (root list_doc)
          = Ok {[ js "items" := RArray [RString (js "1"); RString (js "2")] ]}) as Hrun
    by (vm_compute; reflexivity).
  split; [exact Hrun|].
  exact (single_is_first_of_multi (js "items") (js "li.x") (js "text") VBUndefined
           (Some true) None (root list_doc) _ eq_refl eq_refl Hrun).
Defined.

Lemma multi_one_value_per_match_witness :
  resolveSelectFields [titles_rule] (root abc_doc)
  = Ok {[ js "titles" := RArray [RString (js "a"); RString []; RString (js "c")] ]}
  ∧ ∃ els, find (root abc_doc) (js "p") = inr els
           ∧ length [RString (js "a"); RString []; RString (js "c")] = length els.
Proof.
  assert (resolveSelectFields [titles_rule] (root abc_doc)
          = Ok {[ js "titles" := RArray [RString (js "a"); RString []; RString (js "c")] ]})
    as Hrun by (vm_compute; reflexivity).
  split; [exact Hrun|].
  exact (multi_one_value_per_match (js "titles") (js "p") (js "attr")
           (VBString (js "title")) (Some true) (root abc_doc) _ eq_refl Hrun).
Defined.

Lemma distinct_names_order_irrelevant_witness :
  [items_rule; list_rule] ≡ₚ [list_rule; items_rule]
  ∧ NoDup (varName <$> [items_rule; list_rule])
  ∧ ∃ result',
      resolveSelectFields [list_rule; items_rule] (root list_doc) = Ok result'
      ∧ ∀ k, result' !! k
             = ({[ js "items" := RArray [RString (js "1"); RString (js "2")];
                   js "list" := RString (js "12") ]} : IResolveFieldRecord) !! k.
Proof.
  assert ([items_rule; list_rule] ≡ₚ [list_rule; items_rule]) as Hperm
    by apply perm_swap.
  assert (NoDup (varName <$> [items_rule; list_rule])) as Hnodup
    by (apply (bool_decide_unpack _); vm_compute; exact I).
  split_and!; [exact Hperm|exact Hnodup|].
  apply (distinct_names_order_irrelevant _ _ _ _ Hperm Hnodup).
  vm_compute. reflexivity.
Defined.

Lemma well_typed_rules_never_fail_witness :
  Forall well_typed [card_rule; titles_rule; first_item_rule]
  ∧ (∀ g, rule_in g [card_rule; titles_rule; first_item_rule] → selector g ≠ [] →
          ∀ x : Node, ∃ els, find x (selector g) = inr els)
  ∧ ∃ result,
      resolveSelectFields [card_rule; titles_rule; first_item_rule] (root card_doc)
      = Ok result.
Proof.
  assert (Forall well_typed [card_rule; titles_rule; first_item_rule]) as Hwt.
  { repeat constructor. }
  assert (∀ g, rule_in g [card_rule; titles_rule; first_item_rule] → selector g ≠ [] →
               ∀ x : Node, ∃ els, find x (selector g) = inr els) as Hquery.
  { intros g Hg _ x. rule_in_cases; apply dom_find_ok; vm_compute; reflexivity. }
  split_and!; [exact Hwt|exact Hquery|].
  exact (well_typed_rules_never_fail _ (root card_doc) Hwt Hquery).
Defined.

Definition empty_doc : Tree := el "root" [] [].

Lemma unmatched_document_output_witness :
  Forall (λ f, selector f ≠ [] → find (root empty_doc) (selector f) = inr [])
         [items_rule; proto_rule; bogus_rule "p"; first_item_rule]
  ∧ ∃ result,
      resolveSelectFields [items_rule; proto_rule; bogus_rule "p"; first_item_rule]
                          (root empty_doc)
      = Ok result
      ∧ result !! js "items" = Some (RArray [])
      ∧ result !! js "x" = None
      ∧ result !! js "__proto__" = None.
Proof.
  assert (Forall (λ f, selector f ≠ [] → find (root empty_doc) (selector f) = inr [])
                 [items_rule; proto_rule; bogus_rule "p"; first_item_rule]) as Hfind.
  { repeat (apply Forall_cons; split; [intros _; reflexivity|]). by apply Forall_nil. }
  split; [exact Hfind|].
  destruct (unmatched_document_output
              [items_rule; proto_rule; bogus_rule "p"; first_item_rule]
              (root empty_doc) Hfind) as (result & Hrun & Hkeys).
  { apply Forall_cons. split; [intros _ _; left; reflexivity|].
    apply Forall_cons. split; [intros _ _; left; reflexivity|].
    apply Forall_cons. split; [intros Hm; discriminate Hm|].
    apply Forall_cons. split; [intros Hm; discriminate Hm|].
    by apply Forall_nil. }
  exists result. split_and!; [exact Hrun| | |].
  - rewrite Hkeys. apply decide_True. left. by split_and!.
  - rewrite Hkeys. apply decide_False.
    intros Hex. repeat apply Exists_cons in Hex as [(? & ? & ? & ?)|Hex]; try discriminate.
    by apply Exists_nil in Hex.
  - rewrite Hkeys. apply decide_False.
    intros Hex.
    repeat apply Exists_cons in Hex as [(? & ? & ? & ?)|Hex]; try (discriminate || done).
    by apply Exists_nil in Hex.
Defined.

(** Runs of the driver. *)

Definition null_parse (rulesParams : jsstring) : jsstring + ParsedRules := inr ParsedFalsy.

Definition empty_rules_item : Item :=
  {| sourceType := js "json";
     dataPropertyName := js "data";
     rulesParams := [];
     json_get := (λ name, None);
     binary_get := (λ _, inl (HelperError (js "no binary data"))) |}.

Definition missing_property_item : Item :=
  {| sourceType := js "json";
     dataPropertyName := js "html";
     rulesParams := js "[]";
     json_get := (λ name, None);
     binary_get := (λ _, inl (HelperError (js "no binary data"))) |}.

Definition empty_record (idx : nat) : INodeExecutionData :=
  {| json := ∅; pairedItem := idx |}.

Lemma no_failure_mode_irrelevant_witness :
  execute example_parse example_load example_message false
          [example_item (HtmlString ul_html); example_item (HtmlArray [ul_html; ul_html])]
  = Ok [[empty_record 0; empty_record 1; empty_record 1]]
  ∧ execute example_parse example_load example_message true
            [example_item (HtmlString ul_html); example_item (HtmlArray [ul_html; ul_html])]
    = Ok [[empty_record 0; empty_record 1; empty_record 1]].
Proof.
  assert (execute example_parse example_load example_message false
            [example_item (HtmlString ul_html); example_item (HtmlArray [ul_html; ul_html])]
          = Ok [[empty_record 0; empty_record 1; empty_record 1]]) as Hrun
    by (vm_compute; reflexivity).
  split; [exact Hrun|].
  exact (no_failure_mode_irrelevant _ _ _ _ _ Hrun).
Defined.

Lemma one_record_per_document_witness :
  execute example_parse example_load example_message false
          [example_item (HtmlArray [ul_html; ul_html]); example_item (HtmlArray []);
           example_item (HtmlString ul_html)]
  = Ok [[empty_record 0; empty_record 0; empty_record 2]]
  ∧ ∃ out, [[empty_record 0; empty_record 0; empty_record 2]] = [out]
           ∧ pairedItem <$> out = [0; 0; 2].
Proof.
  assert (execute example_parse example_load example_message false
            [example_item (HtmlArray [ul_html; ul_html]); example_item (HtmlArray []);
             example_item (HtmlString ul_html)]
          = Ok [[empty_record 0; empty_record 0; empty_record 2]]) as Hrun
    by (vm_compute; reflexivity).
  split; [exact Hrun|].
  exact (one_record_per_document _ _ _ _ _ Hrun).
Defined.

Lemma single_document_items_aligned_witness :
  Forall single_document [example_item (HtmlString p_html); example_item (HtmlString ul_html)]
  ∧ ∃ out, [[example_error_item 0; empty_record 1]] = [out]
           ∧ pairedItem <$> out = [0; 1].
Proof.
  assert (Forall single_document
            [example_item (HtmlString p_html); example_item (HtmlString ul_html)]) as Hone.
  { repeat constructor; intros idx htmlArray Hread; vm_compute in Hread;
      injection Hread as <-; reflexivity. }
  split; [exact Hone|].
  apply (single_document_items_aligned example_parse example_load example_message _ _ Hone).
  vm_compute. reflexivity.
Defined.

Lemma unusable_input_errors_witness :
  contribution example_parse example_load example_message empty_rules_item 3
  = Some [errorItem example_message
            (NodeOperationError (rulesInvalid_message [])
                                (OptMessage (js "Unexpected end of JSON input"))) 3]
  ∧ contribution example_parse example_load example_message missing_property_item 4
    = Some [errorItem example_message
              (NodeOperationError (noProperty_message (js "html")) (OptItemIndex 4)) 4].
Proof.
  split.
  - exact (proj1 (unusable_input_errors example_parse example_load example_message
                    empty_rules_item 3) _ eq_refl).
  - exact (proj1 (proj2 (unusable_input_errors example_parse example_load example_message
                           missing_property_item 4)) _ eq_refl eq_refl eq_refl).
Defined.

Lemma no_rules_empty_records_witness :
  null_parse (rulesParams (example_item (HtmlArray [p_html; ul_html]))) = inr ParsedFalsy
  ∧ contribution null_parse example_load example_message
                 (example_item (HtmlArray [p_html; ul_html])) 5
    = Some [empty_record 5; empty_record 5].
Proof.
  split; [reflexivity|].
  exact (no_rules_empty_records null_parse example_load example_message
           (example_item (HtmlArray [p_html; ul_html])) 5 ParsedFalsy [p_html; ul_html]
           eq_refl eq_refl eq_refl).
Defined.

End ExtraExamples.
